(** * mcp-github: the Streamable-HTTP dispatcher of [src/http-server.ts]

    A shallow embedding of the credential resolver, the telemetry recorder,
    the per-token transport cache and the [/mcp] request handler, together
    with the properties the specification states about them.

    Conventions of the embedding.
    - A JavaScript value of type [string | undefined] is an [option string];
      header values, query values and JSON-RPC fields are taken at the types
      the source declares for them ([as string], [toolName: string]).
    - Objects used as string-keyed counters ([Record<string, number>]) and the
      [Map<string, _>] of transports are [gmap string _]; keys inherited from
      [Object.prototype] are outside the model.
    - Counters are natural numbers (the source increments doubles by one).
    - [new Date().toISOString()] is an input of each operation that reads the
      clock.
    - Objects with identity (transports and the servers bound to them) live in
      an allocation-ordered store; a reference is an index into it. *)

From Stdlib Require Import ZArith String Ascii List Lia.
From stdpp Require Import base option list strings gmap pretty sorting.

Local Open Scope string_scope.

(** ** JavaScript string primitives used by the server *)
Module Js.

(** [!!v] for [v : string | undefined]. *)
Definition truthy (v : option string) : bool :=
  match v with
  | Some s => negb (String.eqb s "")
  | None => false
  end.

(** [a || b] where [a : string | undefined] and [b : string]. *)
Definition or_else (a : option string) (b : string) : string :=
  if truthy a then default b a else b.

(** [s.split(sep)] for a one-character separator. *)
Fixpoint split (sep : ascii) (s : string) : list string :=
  match s with
  | EmptyString => [EmptyString]
  | String c s' =>
      if Ascii.eqb c sep then EmptyString :: split sep s'
      else match split sep s' with
           | x :: xs => String c x :: xs
           | [] => [String c EmptyString]
           end
  end.

(** [s.slice(b, e)] for [0 <= b <= e]. *)
Definition slice (b e : nat) (s : string) : string :=
  String.substring b (e - b) s.

(** White space removed by [trim] among the code units a header can hold. *)
Definition is_ws (c : ascii) : bool :=
  let n := nat_of_ascii c in
  (Nat.leb 9 n && Nat.leb n 13) || Nat.eqb n 32 || Nat.eqb n 160.

Fixpoint trimStart (s : string) : string :=
  match s with
  | EmptyString => EmptyString
  | String c s' => if is_ws c then trimStart s' else s
  end.

Fixpoint trimEnd (s : string) : string :=
  match s with
  | EmptyString => EmptyString
  | String c s' =>
      match trimEnd s' with
      | EmptyString => if is_ws c then EmptyString else String c EmptyString
      | r => String c r
      end
  end.

Definition trim (s : string) : string := trimEnd (trimStart s).

(** [s.includes(c)] for a single character. *)
Fixpoint includes (c : ascii) (s : string) : bool :=
  match s with
  | EmptyString => false
  | String d s' => Ascii.eqb d c || includes c s'
  end.

(** [s.startsWith(p)]. *)
Fixpoint startsWith (p s : string) : bool :=
  match p, s with
  | EmptyString, _ => true
  | String a p', String b s' => Ascii.eqb a b && startsWith p' s'
  | String _ _, EmptyString => false
  end.

(** [s.includes(p)] for a string [p]. *)
Fixpoint includesStr (p s : string) : bool :=
  startsWith p s ||
  match s with
  | EmptyString => false
  | String _ s' => includesStr p s'
  end.

(** [arr.pop()] seen as the array that remains. *)
Definition pop {A} (l : list A) : list A := removelast l.

(** [arr.unshift(x)] seen as the array that results. *)
Definition unshift {A} (x : A) (l : list A) : list A := x :: l.

End Js.

(** ** Requests *)

(** JSON-RPC envelope as far as the handler inspects it:
    [req.body?.method] and [req.body?.params?.name]. *)
Record Params := { name : option string }.
Record Body := { method : option string; params : option Params }.

Record Request := {
  req_method : string;                       (* req.method *)
  query_token : option string;               (* req.query.token *)
  hdr_x_github_token : option string;        (* req.headers['x-github-token'] *)
  hdr_x_forwarded_for : option string;       (* req.headers['x-forwarded-for'] *)
  hdr_user_agent : option string;            (* req.headers['user-agent'] *)
  remoteAddress : option string;             (* req.socket.remoteAddress *)
  body : option Body                         (* req.body *)
}.

(** [getClientIp] *)
Definition getClientIp (req : Request) : string :=
  Js.or_else
    (x ← hdr_x_forwarded_for req; s ← Js.split "," x !! 0; Some (Js.trim s))
    (Js.or_else (remoteAddress req) "unknown").

(** ** Telemetry recorder *)
Module Telemetry.

Record RecentCall := { tool : string; timestamp : string; clientIp : string }.

Record Analytics := {
  serverStartTime : string;
  totalRequests : nat;
  totalToolCalls : nat;
  requestsByMethod : gmap string nat;
  requestsByEndpoint : gmap string nat;
  toolCalls : gmap string nat;
  recentToolCalls : list RecentCall;
  clientsByIp : gmap string nat;
  clientsByUserAgent : gmap string nat;
  hourlyRequests : gmap string nat
}.

(** The [analytics] object at process start. *)
Definition init (start : string) : Analytics :=
  {| serverStartTime := start; totalRequests := 0; totalToolCalls := 0;
     requestsByMethod := ∅; requestsByEndpoint := ∅; toolCalls := ∅;
     recentToolCalls := []; clientsByIp := ∅; clientsByUserAgent := ∅;
     hourlyRequests := ∅ |}.

(** [m[k] = (m[k] || 0) + 1] *)
Definition bump (k : string) (m : gmap string nat) : gmap string nat :=
  <[k := default 0 (m !! k) + 1]> m.

(** [req.headers['user-agent'] || 'unknown'] *)
Definition userAgent (req : Request) : string :=
  Js.or_else (hdr_user_agent req) "unknown".

(** [userAgent.split('/')[0] || userAgent.slice(0, 50)] *)
Definition shortUserAgent (ua : string) : string :=
  Js.or_else (Js.split "/" ua !! 0) (Js.slice 0 50 ua).

(** [new Date().toISOString().slice(0, 13) + ':00'] *)
Definition hourKey (now : string) : string := Js.slice 0 13 now ++ ":00".

Definition trackRequest (req : Request) (endpoint now : string)
    (a : Analytics) : Analytics :=
  {| serverStartTime := serverStartTime a;
     totalRequests := totalRequests a + 1;
     totalToolCalls := totalToolCalls a;
     requestsByMethod := bump (req_method req) (requestsByMethod a);
     requestsByEndpoint := bump endpoint (requestsByEndpoint a);
     toolCalls := toolCalls a;
     recentToolCalls := recentToolCalls a;
     clientsByIp := bump (getClientIp req) (clientsByIp a);
     clientsByUserAgent :=
       bump (shortUserAgent (userAgent req)) (clientsByUserAgent a);
     hourlyRequests := bump (hourKey now) (hourlyRequests a) |}.

Definition trackToolCall (toolName ip now : string)
    (a : Analytics) : Analytics :=
  let recent :=
    Js.unshift {| tool := toolName; timestamp := now; clientIp := ip |}
               (recentToolCalls a) in
  {| serverStartTime := serverStartTime a;
     totalRequests := totalRequests a;
     totalToolCalls := totalToolCalls a + 1;
     requestsByMethod := requestsByMethod a;
     requestsByEndpoint := requestsByEndpoint a;
     toolCalls := bump toolName (toolCalls a);
     recentToolCalls :=
       if Nat.ltb 100 (length recent) then Js.pop recent else recent;
     clientsByIp := clientsByIp a;
     clientsByUserAgent := clientsByUserAgent a;
     hourlyRequests := hourlyRequests a |}.

(** A run of the recorder: the two operations in any order. *)
Inductive Op :=
| RecordRequest (req : Request) (endpoint now : string)
| RecordToolCall (toolName ip now : string).

Definition apply (a : Analytics) (op : Op) : Analytics :=
  match op with
  | RecordRequest req endpoint now => trackRequest req endpoint now a
  | RecordToolCall toolName ip now => trackToolCall toolName ip now a
  end.

Definition run (ops : list Op) (a : Analytics) : Analytics :=
  fold_left apply ops a.

(** The tool calls of a run, oldest first. *)
Definition calls (ops : list Op) : list RecentCall :=
  omap (fun op =>
          match op with
          | RecordToolCall toolName ip now =>
              Some {| tool := toolName; timestamp := now; clientIp := ip |}
          | RecordRequest _ _ _ => None
          end) ops.

(** The part of [s] before the first [c]; all of [s] when [c] does not
    occur. *)
Fixpoint before (c : ascii) (s : string) : string :=
  match s with
  | EmptyString => EmptyString
  | String d s' => if Ascii.eqb d c then EmptyString else String d (before c s')
  end.

(** The user-agent key as the specification words it: the part before the
    first [/], or the first 50 characters when there is no [/]. *)
Definition spec_userAgentKey (ua : string) : string :=
  if Js.includes "/" ua then before "/" ua else Js.slice 0 50 ua.

End Telemetry.

(** ** The [/mcp] dispatcher and the per-token transport cache *)
Module Mcp.
Import Telemetry.

(** The part of [process.env] the server reads at start. *)
Record Env := { GITHUB_PERSONAL_ACCESS_TOKEN : option string }.

(** [process.env.GITHUB_PERSONAL_ACCESS_TOKEN || ''] *)
Definition GITHUB_TOKEN (env : Env) : string :=
  Js.or_else (GITHUB_PERSONAL_ACCESS_TOKEN env) "".

(** [const token = req.query.token || req.headers['x-github-token'] ||
    GITHUB_TOKEN] *)
Definition token (env : Env) (req : Request) : string :=
  Js.or_else (query_token req)
    (Js.or_else (hdr_x_github_token req) (GITHUB_TOKEN env)).

(** The JSON-RPC error document the dispatcher itself writes:
    [{ jsonrpc, error: { code, message }, id }]; [id: null] is [None]. *)
Record RpcError := { code : Z; message : string }.
Record RpcEnvelope := { jsonrpc : string; error : RpcError; id : option Z }.

(** [res.status(n).json(doc)] *)
Record Response := { status : Z; json : RpcEnvelope }.

Definition tokenRequired : Response :=
  {| status := 401;
     json := {| jsonrpc := "2.0";
                error := {| code := -32001;
                            message := "GitHub token required. Provide via ?token=YOUR_TOKEN query param, X-GitHub-Token header, or GITHUB_PERSONAL_ACCESS_TOKEN environment variable." |};
                id := None |} |}.

Definition internalError : Response :=
  {| status := 500;
     json := {| jsonrpc := "2.0";
                error := {| code := -32603;
                            message := "Internal server error" |};
                id := None |} |}.

(** What [createMcpServer(token)] builds: a server whose tool handlers all
    close over [new Octokit({ auth: token })], and whose [hello] tool
    reports [!!token]. *)
Record McpServer := { octokit_auth : string; hello_hasToken : bool }.

Definition createMcpServer (k : string) : McpServer :=
  {| octokit_auth := k; hello_hasToken := Js.truthy (Some k) |}.

(** Effects of the handler, in the order they happen.  [rid] numbers the
    requests in order of arrival; [t] is a reference to a transport. *)
Inductive Event :=
| EvTrackRequest (rid : nat)
| EvTrackToolCall (rid : nat) (toolName ip : string)
| EvGet (rid : nat) (k : string) (found : option nat)  (* transports.get *)
| EvNew (rid : nat) (k : string) (t : nat)   (* new transport and server *)
| EvSet (rid : nat) (k : string) (t : nat)             (* transports.set *)
| EvHandleRequest (rid : nat) (t : nat)      (* transport.handleRequest *)
| EvConsoleError (rid : nat)
| EvRespond (rid : nat) (r : Response).

Definition ev_rid (e : Event) : nat :=
  match e with
  | EvTrackRequest rid | EvTrackToolCall rid _ _ | EvGet rid _ _
  | EvNew rid _ _ | EvSet rid _ _ | EvHandleRequest rid _
  | EvConsoleError rid | EvRespond rid _ => rid
  end.

(** Process-wide state.  [sessions !! t] is the server connected to the
    transport with reference [t]; both are allocated together. *)
Record World := {
  analytics : Analytics;
  transports : gmap string nat;
  sessions : list McpServer;
  trace : list Event
}.

Definition init (start : string) : World :=
  {| analytics := Telemetry.init start; transports := ∅;
     sessions := []; trace := [] |}.

Definition emit (es : list Event) (w : World) : World :=
  {| analytics := analytics w; transports := transports w;
     sessions := sessions w; trace := trace w ++ es |}.

Definition record (f : Analytics → Analytics) (w : World) : World :=
  {| analytics := f (analytics w); transports := transports w;
     sessions := sessions w; trace := trace w |}.

Definition alloc (srv : McpServer) (w : World) : World :=
  {| analytics := analytics w; transports := transports w;
     sessions := sessions w ++ [srv]; trace := trace w |}.

Definition cache (k : string) (t : nat) (w : World) : World :=
  {| analytics := analytics w; transports := <[k := t]> (transports w);
     sessions := sessions w; trace := trace w |}.

Definition body_method (req : Request) : option string :=
  b ← body req; method b.

Definition body_params_name (req : Request) : option string :=
  b ← body req; p ← params b; name p.

(** [req.body?.method === 'tools/call' && req.body?.params?.name] *)
Definition is_tool_call (req : Request) : bool :=
  bool_decide (body_method req = Some "tools/call")
  && Js.truthy (body_params_name req).

(** The handler suspends at its two [await]s. *)
Inductive Cont :=
| AwaitConnect (k : string) (t : nat)   (* await mcpServer.server.connect *)
| AwaitHandle (t : nat)                 (* await transport.handleRequest *)
| Finished.

Inductive ConnectOutcome := Connected | ConnectThrew.
Inductive HandleOutcome := Returned | Threw (headersSent : bool).

(** The [catch] block. *)
Definition on_error (rid : nat) (headersSent : bool) (w : World) : World :=
  emit (EvConsoleError rid ::
        if headersSent then [] else [EvRespond rid internalError]) w.

(** From the arrival of a request up to the first suspension. *)
Definition mcp_start (env : Env) (rid : nat) (req : Request)
    (t1 t2 : string) (w : World) : World * Cont :=
  let w := emit [EvTrackRequest rid] (record (trackRequest req "/mcp" t1) w) in
  let k := token env req in
  if negb (Js.truthy (Some k)) then
    (emit [EvRespond rid tokenRequired] w, Finished)
  else
    let w :=
      if is_tool_call req then
        let n := default "" (body_params_name req) in
        emit [EvTrackToolCall rid n (getClientIp req)]
             (record (trackToolCall n (getClientIp req) t2) w)
      else w in
    match transports w !! k with
    | Some t =>
        (emit [EvGet rid k (Some t); EvHandleRequest rid t] w, AwaitHandle t)
    | None =>
        let t := length (sessions w) in
        (emit [EvGet rid k None; EvNew rid k t] (alloc (createMcpServer k) w),
         AwaitConnect k t)
    end.

(** Resumption after [await mcpServer.server.connect(transport)]. *)
Definition mcp_connected (rid : nat) (k : string) (t : nat)
    (o : ConnectOutcome) (w : World) : World * Cont :=
  match o with
  | Connected =>
      (emit [EvSet rid k t; EvHandleRequest rid t] (cache k t w),
       AwaitHandle t)
  | ConnectThrew => (on_error rid false w, Finished)
  end.

(** Resumption after [await transport.handleRequest(req, res, req.body)]. *)
Definition mcp_handled (rid : nat) (o : HandleOutcome) (w : World)
    : World * Cont :=
  match o with
  | Returned => (w, Finished)
  | Threw headersSent => (on_error rid headersSent w, Finished)
  end.

(** The other routes only count the request and answer from the state. *)
Inductive Route := Health | AnalyticsSummary | AnalyticsTools | Dashboard | Root.

Definition path (r : Route) : string :=
  match r with
  | Health => "/health"
  | AnalyticsSummary => "/analytics"
  | AnalyticsTools => "/analytics/tools"
  | Dashboard => "/analytics/dashboard"
  | Root => "/"
  end.

(** *** The event loop: handlers interleave at their suspensions

    A handler runs from the arrival of its request to its first [await], and
    from each resumption to the next [await] or to its end.  When the awaited
    promises settle is decided outside this file (by the transport and the
    server it is connected to), so the model lets any other handler run
    while one is suspended, and lets [connect] and [handleRequest] either
    return or throw. *)

Record Sys := { world : World; reqs : list (Request * Cont) }.

Definition boot (start : string) : Sys :=
  {| world := init start; reqs := [] |}.

Inductive Action :=
| Arrive (req : Request) (t1 t2 : string)
| Visit (r : Route) (req : Request) (now : string)
| ResumeConnect (rid : nat) (o : ConnectOutcome)
| ResumeHandle (rid : nat) (o : HandleOutcome).

Definition step (env : Env) (a : Action) (s : Sys) : option Sys :=
  match a with
  | Arrive req t1 t2 =>
      let '(w, c) := mcp_start env (length (reqs s)) req t1 t2 (world s) in
      Some {| world := w; reqs := reqs s ++ [(req, c)] |}
  | Visit r req now =>
      let w := emit [EvTrackRequest (length (reqs s))]
                    (record (trackRequest req (path r) now) (world s)) in
      Some {| world := w; reqs := reqs s ++ [(req, Finished)] |}
  | ResumeConnect rid o =>
      match reqs s !! rid with
      | Some (req, AwaitConnect k t) =>
          let '(w, c) := mcp_connected rid k t o (world s) in
          Some {| world := w; reqs := <[rid := (req, c)]> (reqs s) |}
      | _ => None
      end
  | ResumeHandle rid o =>
      match reqs s !! rid with
      | Some (req, AwaitHandle t) =>
          let '(w, c) := mcp_handled rid o (world s) in
          Some {| world := w; reqs := <[rid := (req, c)]> (reqs s) |}
      | _ => None
      end
  end.

Fixpoint exec (env : Env) (acts : list Action) (s : Sys) : option Sys :=
  match acts with
  | [] => Some s
  | a :: acts' => s' ← step env a s; exec env acts' s'
  end.

(** *** One request at a time: the handler run to completion *)

Record Job := {
  job_req : Request; job_t1 : string; job_t2 : string;
  job_connect : ConnectOutcome; job_handle : HandleOutcome
}.

Definition handle_mcp (env : Env) (rid : nat) (j : Job) (w : World) : World :=
  let '(w1, c1) := mcp_start env rid (job_req j) (job_t1 j) (job_t2 j) w in
  let '(w2, c2) :=
    match c1 with
    | AwaitConnect k t => mcp_connected rid k t (job_connect j) w1
    | _ => (w1, c1)
    end in
  match c2 with
  | AwaitHandle _ => fst (mcp_handled rid (job_handle j) w2)
  | _ => w2
  end.

Fixpoint serve (env : Env) (rid : nat) (jobs : list Job) (w : World) : World :=
  match jobs with
  | [] => w
  | j :: jobs' => serve env (S rid) jobs' (handle_mcp env rid j w)
  end.

(** Projections of a trace. *)
Definition forwards (tr : list Event) : list (nat * nat) :=
  omap (fun e => match e with
                 | EvHandleRequest rid t => Some (rid, t)
                 | _ => None
                 end) tr.

Definition responses (rid : nat) (tr : list Event) : list Response :=
  omap (fun e => match e with
                 | EvRespond rid' r => if decide (rid' = rid) then Some r else None
                 | _ => None
                 end) tr.

(** The resolver as the specification words it: the first source that is
    present and not empty wins; no such source is the missing outcome. *)
Fixpoint spec_resolve (sources : list (option string)) : option string :=
  match sources with
  | [] => None
  | Some s :: rest => if String.eqb s "" then spec_resolve rest else Some s
  | None :: rest => spec_resolve rest
  end.

(** What the handler does with [token]: [if (!token)] is the missing
    outcome. *)
Definition resolved (env : Env) (req : Request) : option string :=
  let k := token env req in
  if negb (Js.truthy (Some k)) then None else Some k.

Definition absent_or_empty (v : option string) : Prop :=
  v = None ∨ v = Some "".

End Mcp.

Import Telemetry Mcp.
Local Open Scope nat_scope.
Local Open Scope list_scope.

(** * Vocabulary of the statements *)

(** The events of one request, in order. *)
Definition events_of (rid : nat) (tr : list Event) : list Event :=
  filter (λ e, ev_rid e = rid) tr.

(** The request an action runs on behalf of. *)
Definition action_rid (a : Action) (s : Sys) : nat :=
  match a with
  | Arrive _ _ _ | Visit _ _ _ => length (reqs s)
  | ResumeConnect rid _ | ResumeHandle rid _ => rid
  end.

(** The server a transport reference denotes is the one built for [k]. *)
Definition bound_to (w : World) (t : nat) (k : string) : Prop :=
  sessions w !! t = Some (createMcpServer k).

(** What holds of every state the event loop can reach. *)
Record Inv (env : Env) (s : Sys) : Prop := {
  inv_trace : Forall (λ e, ev_rid e < length (reqs s)) (trace (world s));
  inv_cache : ∀ k t, transports (world s) !! k = Some t →
                     bound_to (world s) t k;
  inv_sessions : ∀ t srv, sessions (world s) !! t = Some srv →
                          octokit_auth srv ≠ "";
  inv_reqs : ∀ rid req c, reqs s !! rid = Some (req, c) →
      match c with
      | AwaitConnect k t => k = token env req ∧ bound_to (world s) t k
      | AwaitHandle t => bound_to (world s) t (token env req)
      | Finished => True
      end;
  inv_silent : ∀ rid req c, reqs s !! rid = Some (req, c) → c ≠ Finished →
                            responses rid (trace (world s)) = [];
  inv_forwards : ∀ rid t, EvHandleRequest rid t ∈ trace (world s) →
      ∃ req c, reqs s !! rid = Some (req, c)
               ∧ bound_to (world s) t (token env req)
}.


(** The request used to separate the code's key from the specification's: a
    62-character product token without version. *)
Definition long_agent : Request :=
  {| req_method := "POST"; query_token := None; hdr_x_github_token := None;
     hdr_x_forwarded_for := None;
     hdr_user_agent :=
       Some "an-http-client-library-that-sends-no-version-in-its-agent-name";
     remoteAddress := Some "127.0.0.1"; body := None |}.

(** A tool-call request; [n] is [params.name]. *)
Definition call_request (q : option string) (n : option string) : Request :=
  {| req_method := "POST"; query_token := q; hdr_x_github_token := None;
     hdr_x_forwarded_for := None; hdr_user_agent := Some "curl/8.5.0";
     remoteAddress := Some "127.0.0.1";
     body := Some {| method := Some "tools/call";
                     params := Some {| name := n |} |} |}.

Definition no_default : Env := {| GITHUB_PERSONAL_ACCESS_TOKEN := None |}.

(** Two first requests with the same unseen token, the second arriving while
    the first is suspended at [await mcpServer.server.connect(transport)]. *)
Definition first_request : Request := call_request (Some "ghp_a") (Some "hello").

Definition race : list Action :=
  [Arrive first_request "2026-01-01T00:00:00.000Z" "2026-01-01T00:00:00.001Z";
   Arrive first_request "2026-01-01T00:00:00.002Z" "2026-01-01T00:00:00.003Z";
   ResumeConnect 0 Connected;
   ResumeConnect 1 Connected].

(** One request served up to the point where its payload has been handed to
    the transport. *)
Definition warm_up : list Action :=
  [Arrive first_request "2026-01-01T00:00:00.000Z" "2026-01-01T00:00:00.001Z";
   ResumeConnect 0 Connected].

(** Two callers with different tokens, interleaved. *)
Definition two_users : list Action :=
  [Arrive (call_request (Some "ghp_a") (Some "hello")) "" "";
   Arrive (call_request (Some "ghp_b") (Some "hello")) "" "";
   ResumeConnect 1 Connected;
   ResumeConnect 0 Connected;
   Arrive (call_request (Some "ghp_a") (Some "hello")) "" ""].

Definition serial_job (now : string) : Job :=
  {| job_req := first_request; job_t1 := now; job_t2 := now;
     job_connect := Connected; job_handle := Returned |}.



(** * The read side: uptime, health and the analytics snapshots *)
Module Snapshot.

(** [getUptime].  [start] is [new Date(analytics.serverStartTime).getTime()]
    and [now] is [Date.now()], both integers of milliseconds; [Math.floor]
    of a quotient is the floor division and [%] is the remainder that takes
    the sign of the dividend. *)
Definition days (diff : Z) : Z := (diff / (1000 * 60 * 60 * 24))%Z.

Definition hours (diff : Z) : Z :=
  (Z.rem diff (1000 * 60 * 60 * 24) / (1000 * 60 * 60))%Z.

Definition minutes (diff : Z) : Z :=
  (Z.rem diff (1000 * 60 * 60) / (1000 * 60))%Z.

Definition getUptime (start now : Z) : string :=
  let diff := (now - start)%Z in
  if (0 <? days diff)%Z then
    pretty (days diff) +:+ "d " +:+ pretty (hours diff) +:+ "h "
    +:+ pretty (minutes diff) +:+ "m"
  else if (0 <? hours diff)%Z then
    pretty (hours diff) +:+ "h " +:+ pretty (minutes diff) +:+ "m"
  else pretty (minutes diff) +:+ "m".

(** [arr.sort(cmp)]: the stable sort, as the language fixes it for a
    consistent comparator; [cmp x y <= 0] keeps [x] before [y]. *)
Fixpoint sort_insert {A} (cmp : A → A → Z) (x : A) (l : list A) : list A :=
  match l with
  | [] => [x]
  | y :: l' =>
      if (cmp x y <=? 0)%Z then x :: l else y :: sort_insert cmp x l'
  end.

Definition sort {A} (cmp : A → A → Z) (l : list A) : list A :=
  foldr (sort_insert cmp) [] l.




(** [localeCompare] is the host's collation, taken as a parameter. *)
Definition last24Hours (localeCompare : string → string → Z)
    (entries : list (string * nat)) : list (string * nat) :=
  reverse (take 24 (sort (λ x y, localeCompare y.1 x.1) entries)).


(** [recentToolCalls: analytics.recentToolCalls.slice(0, 20)] *)
Definition recentToolCalls20 (a : Analytics) : list RecentCall :=
  take 20 (recentToolCalls a).

(** The body of [/health]. *)
Record Health := {
  health_status : string;
  health_server : string;
  health_version : string;
  health_transport : string;
  hasToken : bool;
  health_timestamp : string
}.

Definition health (env : Env) (now : string) : Health :=
  {| health_status := "healthy";
     health_server := "GitHub MCP Server";
     health_version := "1.0.0";
     health_transport := "streamable-http";
     hasToken := Js.truthy (Some (GITHUB_TOKEN env));
     health_timestamp := now |}.

End Snapshot.

Import Snapshot.

(** ** Vocabulary of the further statements *)













(** The calls of [transport.handleRequest] made for one request. *)
Definition forwards_of (rid : nat) (tr : list Event) : list nat :=
  omap (λ e, match e with
             | EvHandleRequest rid' t =>
                 if decide (rid' = rid) then Some t else None
             | _ => None
             end) tr.

(** The tool-call notifications in a trace. *)
Definition tool_events (tr : list Event) : list (nat * string * string) :=
  omap (λ e, match e with
             | EvTrackToolCall rid n ip => Some (rid, n, ip)
             | _ => None
             end) tr.

(** Comparison of strings by code units, as a comparator. *)
Definition codeUnitCompare (a b : string) : Z :=
  if String.leb a b then (if String.leb b a then 0 else -1)%Z else 1%Z.

(** [x] may stay before [y] under the comparator [cmp]. *)
Definition before_or_tied {A} (cmp : A → A → Z) (x y : A) : Prop :=
  (cmp x y ≤ 0)%Z.

(** Each request is answered by the dispatcher at most once and forwarded at
    most once, and not forwarded while it awaits [connect]. *)
Definition Once (s : Sys) : Prop :=
  ∀ rid,
    length (responses rid (trace (world s))) ≤ 1
    ∧ length (forwards_of rid (trace (world s))) ≤ 1
    ∧ ∀ req k t, reqs s !! rid = Some (req, AwaitConnect k t) →
                 forwards_of rid (trace (world s)) = [].

(** * Properties *)

(** ** JavaScript truthiness of strings *)
Section Truthiness.

Lemma truthy_Some (s : string) : Js.truthy (Some s) = true ↔ s ≠ "".
Proof.
  unfold Js.truthy. destruct (String.eqb_spec s ""); simpl; split; congruence.
Qed.

Lemma truthy_false (v : option string) :
  Js.truthy v = false ↔ absent_or_empty v.
Proof.
  unfold absent_or_empty. destruct v as [s|]; simpl.
  - destruct (String.eqb_spec s ""); simpl; subst; split; intros; auto;
      try discriminate.
    destruct H as [H|H]; [discriminate | congruence].
  - split; auto.
Qed.

Lemma or_else_falsy (a : option string) (b : string) :
  absent_or_empty a → Js.or_else a b = b.
Proof.
  intros H. apply truthy_false in H. unfold Js.or_else. now rewrite H.
Qed.

Lemma or_else_empty (a : option string) (b : string) :
  Js.or_else a b = "" ↔ absent_or_empty a ∧ b = "".
Proof.
  unfold Js.or_else. destruct (Js.truthy a) eqn:E.
  - destruct a as [s|]; [|discriminate]. simpl.
    apply truthy_Some in E. split.
    + intros ->. congruence.
    + intros [[H|H] _]; [discriminate | congruence].
  - apply truthy_false in E. tauto.
Qed.

End Truthiness.

(** ** Credential resolver *)

Lemma GITHUB_TOKEN_empty (env : Env) :
  GITHUB_TOKEN env = "" ↔ absent_or_empty (GITHUB_PERSONAL_ACCESS_TOKEN env).
Proof. unfold GITHUB_TOKEN. rewrite or_else_empty. tauto. Qed.

Lemma token_empty (env : Env) (req : Request) :
  token env req = "" ↔
  absent_or_empty (query_token req) ∧
  absent_or_empty (hdr_x_github_token req) ∧
  absent_or_empty (GITHUB_PERSONAL_ACCESS_TOKEN env).
Proof.
  unfold token. rewrite !or_else_empty, GITHUB_TOKEN_empty. tauto.
Qed.


Lemma resolved_None (env : Env) (req : Request) :
  resolved env req = None ↔ token env req = "".
Proof.
  unfold resolved. destruct (Js.truthy (Some (token env req))) eqn:E; simpl.
  - apply truthy_Some in E. split; [discriminate | contradiction].
  - apply truthy_false in E. destruct E as [E|E]; [discriminate|].
    injection E as E. tauto.
Qed.

(** C1.  The handler's token is the first of the query parameter [token], the
    [X-GitHub-Token] header and the configured default that is present and
    not empty, and the handler takes the missing-credential branch exactly
    when all three are absent or empty. *)
Theorem credential_precedence (env : Env) (req : Request) :
  resolved env req =
    spec_resolve [query_token req; hdr_x_github_token req;
                  GITHUB_PERSONAL_ACCESS_TOKEN env]
  ∧ (resolved env req = None ↔
       absent_or_empty (query_token req) ∧
       absent_or_empty (hdr_x_github_token req) ∧
       absent_or_empty (GITHUB_PERSONAL_ACCESS_TOKEN env))
  ∧ (∀ rid t1 t2 w,
       snd (mcp_start env rid req t1 t2 w) = Finished ↔ resolved env req = None).
Proof.
  split; [|split].
  - unfold resolved, token, GITHUB_TOKEN, Js.or_else, Js.truthy; simpl.
    destruct (query_token req) as [q|], (hdr_x_github_token req) as [h|],
      (GITHUB_PERSONAL_ACCESS_TOKEN env) as [d|]; cbn;
      repeat match goal with
             | |- context [String.eqb ?x ""] =>
                 is_var x; destruct (String.eqb_spec x ""); subst; cbn
             end; first [reflexivity | contradiction].
  - rewrite resolved_None. apply token_empty.
  - intros rid t1 t2 w. unfold mcp_start, resolved.
    destruct (negb (Js.truthy (Some (token env req)))); simpl.
    + tauto.
    + match goal with
      | |- context [transports ?w' !! ?k] => destruct (transports w' !! k)
      end; simpl; split; discriminate.
Qed.

(** ** Telemetry recorder *)

Lemma split_head (c : ascii) (s : string) :
  Js.split c s !! 0 = Some (before c s).
Proof.
  induction s as [|d s IH]; simpl; [reflexivity|].
  destruct (Ascii.eqb d c); [reflexivity|].
  destruct (Js.split c s) as [|x xs]; [discriminate|].
  simpl in *. congruence.
Qed.

Lemma before_without (c : ascii) (s : string) :
  Js.includes c s = false → before c s = s.
Proof.
  induction s as [|d s IH]; simpl; [reflexivity|].
  destruct (Ascii.eqb d c); simpl; [discriminate|].
  intros H. now rewrite IH.
Qed.

Lemma before_with (c : ascii) (s : string) :
  Js.includes c s = true → before c s ≠ s.
Proof.
  induction s as [|d s IH]; simpl; [discriminate|].
  destruct (Ascii.eqb d c); simpl; [discriminate|].
  intros H E. injection E as E. now apply IH.
Qed.

Lemma userAgent_nonempty (req : Request) : userAgent req ≠ "".
Proof.
  unfold userAgent. intros H. apply or_else_empty in H as [_ H]. discriminate.
Qed.

Lemma slice_all (n : nat) (s : string) :
  String.length s ≤ n → Js.slice 0 n s = s.
Proof.
  unfold Js.slice. rewrite Nat.sub_0_r. revert n.
  induction s as [|c s IH]; intros [|n] H; cbn in *; try reflexivity; try lia.
  f_equal. apply IH. lia.
Qed.

Lemma shortUserAgent_cases (ua : string) :
  shortUserAgent ua =
    if String.eqb (before "/" ua) "" then Js.slice 0 50 ua else before "/" ua.
Proof.
  unfold shortUserAgent. rewrite split_head. unfold Js.or_else, Js.truthy.
  now destruct (String.eqb (before "/" ua) "").
Qed.

(** C7, as stated, fails: a user-agent without [/] that is longer than 50
    characters is counted under its full text, not under its first 50
    characters. *)
Lemma user_agent_key_not_as_specified :
  ¬ (∀ req : Request,
       shortUserAgent (userAgent req) = spec_userAgentKey (userAgent req)).
Proof. intros H. specialize (H long_agent). vm_compute in H. discriminate. Qed.

(** C7, amended.  Every recorded request is counted under the key computed
    from its user-agent ([unknown] when the header is absent or empty): the
    part before the first [/] when that part is not empty, which is the whole
    user-agent when it has no [/]; the first 50 characters when the
    user-agent begins with [/].  This is the key of the specification when
    the user-agent has a [/] but does not begin with it, and when it has no
    [/] and at most 50 characters. *)
Theorem user_agent_key (req : Request) (endpoint now : string) (a : Analytics) :
  let ua := userAgent req in
  let key := shortUserAgent ua in
  clientsByUserAgent (trackRequest req endpoint now a)
    = <[key := default 0 (clientsByUserAgent a !! key) + 1]> (clientsByUserAgent a)
  ∧ key = (if String.eqb (before "/" ua) "" then Js.slice 0 50 ua
           else before "/" ua)
  ∧ (String.eqb (before "/" ua) "" = Js.startsWith "/" ua)
  ∧ (if Js.includes "/" ua then before "/" ua ≠ ua else key = ua)
  ∧ (if (Js.includes "/" ua && negb (Js.startsWith "/" ua))
        || (negb (Js.includes "/" ua) && Nat.leb (String.length ua) 50)
     then key = spec_userAgentKey ua else True).
Proof.
  intros ua key.
  assert (Hstart : String.eqb (before "/" ua) "" = Js.startsWith "/" ua).
  { pose proof (userAgent_nonempty req) as Hne. subst key ua.
    destruct (userAgent req) as [|d s]; [contradiction|].
    cbn [Js.startsWith before]. rewrite (Ascii.eqb_sym d).
    now destruct (Ascii.eqb "/" d). }
  assert (Hwhole : Js.includes "/" ua = false → key = ua).
  { intros E. subst key. rewrite shortUserAgent_cases, (before_without _ _ E).
    pose proof (userAgent_nonempty req) as Hne. fold ua in Hne.
    apply String.eqb_neq in Hne. now rewrite Hne. }
  split; [reflexivity|]. split; [apply shortUserAgent_cases|].
  split; [exact Hstart|]. split.
  - destruct (Js.includes "/" ua) eqn:E; [now apply before_with | auto].
  - unfold spec_userAgentKey. subst key. rewrite shortUserAgent_cases, Hstart.
    destruct (Js.includes "/" ua) eqn:E; cbn [andb orb negb].
    + rewrite orb_false_r. now destruct (Js.startsWith "/" ua).
    + destruct (Nat.leb_spec (String.length ua) 50) as [Hle|Hgt]; [|exact I].
      rewrite (slice_all _ _ Hle), (before_without _ _ E).
      now destruct (Js.startsWith "/" ua).
Qed.


Lemma recent_after_unshift (e : RecentCall) (l : list RecentCall) :
  (length l ≤ 100)%nat →
  (if Nat.ltb 100 (length (Js.unshift e l)) then Js.pop (Js.unshift e l)
   else Js.unshift e l) = take 100 (e :: l).
Proof.
  intros Hl. unfold Js.unshift, Js.pop.
  destruct (Nat.ltb_spec 100 (length (e :: l))) as [H|H].
  - rewrite removelast_firstn_len. f_equal. simpl in *. lia.
  - symmetry. apply take_ge. lia.
Qed.

Lemma recent_trackToolCall (toolName ip now : string) (a : Analytics) :
  length (recentToolCalls a) ≤ 100 →
  recentToolCalls (trackToolCall toolName ip now a) =
  take 100 ({| tool := toolName; timestamp := now; clientIp := ip |}
            :: recentToolCalls a).
Proof.
  intros Hl. unfold trackToolCall. cbn [recentToolCalls].
  now apply recent_after_unshift.
Qed.

Lemma take_cons_take {A} (n : nat) (x : A) (l : list A) :
  take (S n) (x :: take (S n) l) = take (S n) (x :: l).
Proof. simpl. f_equal. rewrite take_take. f_equal. lia. Qed.

Lemma run_snoc (ops : list Op) (op : Op) (a : Analytics) :
  run (ops ++ [op]) a = apply (run ops a) op.
Proof. unfold run. now rewrite fold_left_app. Qed.

Lemma calls_snoc_tool (ops : list Op) (toolName ip now : string) :
  calls (ops ++ [RecordToolCall toolName ip now]) =
  calls ops ++ [{| tool := toolName; timestamp := now; clientIp := ip |}].
Proof. unfold calls. now rewrite omap_app. Qed.

Lemma calls_snoc_request (ops : list Op) (req : Request) (endpoint now : string) :
  calls (ops ++ [RecordRequest req endpoint now]) = calls ops.
Proof. unfold calls. rewrite omap_app. simpl. apply app_nil_r. Qed.

Lemma recent_of_run (start : string) (ops : list Op) :
  recentToolCalls (run ops (Telemetry.init start)) =
  take 100 (reverse (calls ops)).
Proof.
  induction ops as [|op ops IH] using rev_ind; [reflexivity|].
  rewrite run_snoc.
  destruct op as [req endpoint now | toolName ip now]; cbn [apply].
  - now rewrite calls_snoc_request.
  - rewrite calls_snoc_tool, reverse_snoc, recent_trackToolCall.
    + rewrite IH. apply (take_cons_take 99).
    + rewrite IH, length_take. lia.
Qed.

(** C6.  After any sequence of recordRequest and recordToolCall operations
    the recent-calls list has at most 100 entries and holds the most recent
    tool calls, newest first; recordToolCall puts the new entry in front and
    keeps the first 100 entries of the result, so the oldest one is dropped
    when the list was full. *)
Theorem recent_calls_bounded_newest_first
    (start : string) (ops : list Op) (toolName ip now : string) :
  let a := run ops (Telemetry.init start) in
  let e := {| tool := toolName; timestamp := now; clientIp := ip |} in
  (length (recentToolCalls a) ≤ 100)%nat
  ∧ recentToolCalls a = take 100 (reverse (calls ops))
  ∧ recentToolCalls (trackToolCall toolName ip now a)
      = take 100 (e :: recentToolCalls a)
  ∧ (if decide (length (recentToolCalls a) = 100)
     then recentToolCalls (trackToolCall toolName ip now a)
            = e :: removelast (recentToolCalls a)
     else recentToolCalls (trackToolCall toolName ip now a)
            = e :: recentToolCalls a).
Proof.
  intros a e.
  assert (Hlen : (length (recentToolCalls a) ≤ 100)%nat).
  { subst a. rewrite recent_of_run, length_take. lia. }
  assert (Hstep : recentToolCalls (trackToolCall toolName ip now a)
                  = take 100 (e :: recentToolCalls a)).
  { now apply recent_trackToolCall. }
  split; [exact Hlen|]. split; [apply recent_of_run|]. split; [exact Hstep|].
  rewrite Hstep. case_decide as Hfull.
  - simpl. f_equal. rewrite removelast_firstn_len. f_equal. lia.
  - apply take_ge. simpl. lia.
Qed.

(** ** The handler, phase by phase *)
Section Phases.
Context (env : Env).

Lemma mcp_start_shape rid req t1 t2 w :
  ∃ es, trace (mcp_start env rid req t1 t2 w).1 = trace w ++ es
    ∧ Forall (λ e, ev_rid e = rid) es
    ∧ transports (mcp_start env rid req t1 t2 w).1 = transports w
    ∧ match (mcp_start env rid req t1 t2 w).2 with
      | Finished =>
          token env req = ""
          ∧ sessions (mcp_start env rid req t1 t2 w).1 = sessions w
          ∧ es = [EvTrackRequest rid; EvRespond rid tokenRequired]
      | AwaitHandle t =>
          token env req ≠ ""
          ∧ transports w !! token env req = Some t
          ∧ sessions (mcp_start env rid req t1 t2 w).1 = sessions w
          ∧ forwards es = [(rid, t)] ∧ responses rid es = []
      | AwaitConnect k t =>
          k = token env req ∧ k ≠ ""
          ∧ transports w !! k = None
          ∧ t = length (sessions w)
          ∧ sessions (mcp_start env rid req t1 t2 w).1
            = sessions w ++ [createMcpServer k]
          ∧ forwards es = [] ∧ responses rid es = []
      end.
Proof.
  unfold mcp_start.
  destruct (Js.truthy (Some (token env req))) eqn:Hk; cbn [negb].
  - apply truthy_Some in Hk.
    destruct (is_tool_call req); cbn;
      destruct (transports w !! token env req) as [t|] eqn:Hget; cbn;
      rewrite <- ?app_assoc; eexists; (split; [reflexivity|]);
      (split; [repeat constructor|]); rewrite ?decide_False by discriminate;
      auto 10.
  - apply truthy_false in Hk as [Hk|Hk]; [discriminate|].
    injection Hk as Hk. cbn. rewrite <- app_assoc.
    eexists; split; [reflexivity|]. split; [repeat constructor|]. auto.
Qed.

Lemma step_trace a s s' :
  step env a s = Some s' →
  ∃ es, trace (world s') = trace (world s) ++ es
        ∧ Forall (λ e, ev_rid e = action_rid a s) es.
Proof.
  destruct a as [req t1 t2 | r req now | rid o | rid o]; cbn [step action_rid].
  - destruct (mcp_start env (length (reqs s)) req t1 t2 (world s))
      as [w c] eqn:E.
    intros [= <-]. cbn.
    destruct (mcp_start_shape (length (reqs s)) req t1 t2 (world s))
      as (es & Ht & Hes & _).
    rewrite E in Ht. eauto.
  - intros [= <-]. cbn. eexists; split; [reflexivity|]. repeat constructor.
  - destruct (reqs s !! rid) as [[req [k t| |]]|]; try discriminate.
    destruct o; intros [= <-]; cbn; eexists; (split; [reflexivity|]);
      repeat constructor.
  - destruct (reqs s !! rid) as [[req [|t|]]|]; try discriminate.
    destruct o as [|[]]; intros [= <-]; cbn;
      try (eexists; (split; [reflexivity|]); repeat constructor).
    exists []. rewrite app_nil_r. split; [reflexivity | constructor].
Qed.

(** A finished handler never runs again. *)
Lemma step_finished a s s' rid req :
  reqs s !! rid = Some (req, Finished) →
  step env a s = Some s' →
  reqs s' !! rid = Some (req, Finished) ∧ action_rid a s ≠ rid.
Proof.
  intros Hfin.
  pose proof (lookup_lt_Some _ _ _ Hfin) as Hlt.
  destruct a as [req' t1 t2 | r req' now | rid' o | rid' o];
    cbn [step action_rid].
  - destruct (mcp_start env _ req' t1 t2 (world s)).
    intros [= <-]. cbn. split; [|lia]. now apply lookup_app_l_Some.
  - intros [= <-]. cbn. split; [|lia]. now apply lookup_app_l_Some.
  - destruct (reqs s !! rid') as [[req'' c]|] eqn:E; [|discriminate].
    destruct c; try discriminate. destruct (mcp_connected _ _ _ _ _).
    intros [= <-]. cbn.
    assert (rid' ≠ rid) by (intros ->; congruence).
    split; [|assumption]. now rewrite list_lookup_insert_ne.
  - destruct (reqs s !! rid') as [[req'' c]|] eqn:E; [|discriminate].
    destruct c; try discriminate. destruct (mcp_handled _ _ _).
    intros [= <-]. cbn.
    assert (rid' ≠ rid) by (intros ->; congruence).
    split; [|assumption]. now rewrite list_lookup_insert_ne.
Qed.

Lemma events_of_app rid tr1 tr2 :
  events_of rid (tr1 ++ tr2) = events_of rid tr1 ++ events_of rid tr2.
Proof. apply filter_app. Qed.

Lemma events_of_own rid es :
  Forall (λ e, ev_rid e = rid) es → events_of rid es = es.
Proof.
  unfold events_of. induction 1 as [|e es He _ IH]; [reflexivity|].
  rewrite filter_cons_True by assumption. now rewrite IH.
Qed.

Lemma events_of_other rid rid' es :
  rid' ≠ rid → Forall (λ e, ev_rid e = rid') es → events_of rid es = [].
Proof.
  unfold events_of. intros Hne. induction 1 as [|e es He _ IH]; [reflexivity|].
  rewrite filter_cons_False by congruence. exact IH.
Qed.

Lemma events_of_fresh rid tr :
  Forall (λ e, ev_rid e < rid) tr → events_of rid tr = [].
Proof.
  unfold events_of. induction 1 as [|e es He _ IH]; [reflexivity|].
  rewrite filter_cons_False by lia. exact IH.
Qed.

Lemma exec_finished acts : ∀ s s' rid req,
  reqs s !! rid = Some (req, Finished) →
  exec env acts s = Some s' →
  reqs s' !! rid = Some (req, Finished)
  ∧ events_of rid (trace (world s')) = events_of rid (trace (world s)).
Proof.
  induction acts as [|a acts IH]; intros s s' rid req Hfin; cbn [exec].
  - intros [= <-]. auto.
  - destruct (step env a s) as [s1|] eqn:Hstep; [|discriminate]. cbn.
    intros Hexec.
    destruct (step_finished _ _ _ _ _ Hfin Hstep) as [Hfin1 Hne].
    destruct (step_trace _ _ _ Hstep) as (es & Ht & Hes).
    destruct (IH _ _ _ _ Hfin1 Hexec) as [Hfin' Hev].
    split; [assumption|].
    rewrite Hev, Ht, events_of_app, (events_of_other _ _ _ Hne Hes).
    apply app_nil_r.
Qed.



End Phases.

(** ** Every reachable state satisfies the invariant *)
Section Invariant.
Context (env : Env).

Lemma bound_to_app w w' t k l :
  sessions w' = sessions w ++ l → bound_to w t k → bound_to w' t k.
Proof. unfold bound_to. intros ->. apply lookup_app_l_Some. Qed.

Lemma responses_app rid tr1 tr2 :
  responses rid (tr1 ++ tr2) = responses rid tr1 ++ responses rid tr2.
Proof. apply omap_app. Qed.

Lemma responses_other rid tr :
  Forall (λ e, ev_rid e ≠ rid) tr → responses rid tr = [].
Proof.
  induction 1 as [|e tr He _ IH]; [reflexivity|].
  unfold responses in *. cbn. rewrite IH.
  destruct e; try reflexivity. cbn in He. now rewrite decide_False.
Qed.

Lemma forwards_elem tr rid t :
  EvHandleRequest rid t ∈ tr ↔ (rid, t) ∈ forwards tr.
Proof.
  unfold forwards. rewrite list_elem_of_omap. split.
  - intros H. eexists. split; [exact H | reflexivity].
  - intros (e & He & Hf). destruct e; try discriminate.
    now injection Hf as -> ->.
Qed.

Lemma forwards_app tr1 tr2 :
  forwards (tr1 ++ tr2) = forwards tr1 ++ forwards tr2.
Proof. apply omap_app. Qed.

Lemma boot_inv start : Inv env (boot start).
Proof.
  constructor; cbn; try constructor; intros *;
    rewrite ?lookup_empty, ?lookup_nil; try discriminate.
  intros H. inversion H.
Qed.

Lemma arrive_inv s req t1 t2 s' :
  Inv env s → step env (Arrive req t1 t2) s = Some s' → Inv env s'.
Proof.
  intros [Itr Ica Ise Ire Isi Ifo]. cbn [step].
  destruct (mcp_start_shape env (length (reqs s)) req t1 t2 (world s))
    as (es & Ht & Hes & Htr & Hc).
  destruct (mcp_start env (length (reqs s)) req t1 t2 (world s))
    as [w c] eqn:E.
  cbn [fst snd] in *. intros [= <-].
  assert (Hgrow : ∃ l, sessions w = sessions (world s) ++ l
                       ∧ Forall (λ srv, octokit_auth srv ≠ "") l).
  { destruct c as [k t|t|].
    - destruct Hc as (_ & Hk & _ & _ & Hs & _). eexists; split; [exact Hs|].
      repeat constructor. exact Hk.
    - destruct Hc as (_ & _ & Hs & _). exists []. now rewrite app_nil_r.
    - destruct Hc as (_ & Hs & _). exists []. now rewrite app_nil_r. }
  destruct Hgrow as (l & Hs & Hl).
  assert (Hother : Forall (λ e, ev_rid e ≠ length (reqs s)) (trace (world s))).
  { eapply Forall_impl; [exact Itr|]. cbn. intros; lia. }
  constructor; cbn [world reqs].
  - rewrite Ht, length_app. cbn. apply Forall_app. split.
    + eapply Forall_impl; [exact Itr|]. cbn. intros; lia.
    + eapply Forall_impl; [exact Hes|]. cbn. intros; lia.
  - intros k t. rewrite Htr. intros H. eapply bound_to_app; eauto.
  - intros t srv. rewrite Hs. intros [H|[_ H]]%lookup_app_Some; [eauto|].
    eapply Forall_lookup_1 in Hl; eauto.
  - intros rid req0 c0 [H|[Hge H]]%lookup_app_Some.
    + specialize (Ire _ _ _ H). destruct c0; auto.
      * destruct Ire; split; [assumption|]. eapply bound_to_app; eauto.
      * eapply bound_to_app; eauto.
    + destruct (rid - length (reqs s)) as [|n] eqn:En; [|discriminate].
      cbn in H. injection H as <- <-.
      destruct c as [k t|t|]; [| |exact I].
      * destruct Hc as (Hk & _ & _ & -> & Hs' & _). split; [assumption|].
        unfold bound_to. rewrite Hs'. apply list_lookup_middle. reflexivity.
      * destruct Hc as (_ & Hget & _). eapply bound_to_app; eauto.
  - intros rid req0 c0 [H|[Hge H]]%lookup_app_Some Hne.
    + rewrite Ht, responses_app, (Isi _ _ _ H Hne). cbn.
      apply responses_other. eapply Forall_impl; [exact Hes|]. cbn.
      apply lookup_lt_Some in H. intros; lia.
    + destruct (rid - length (reqs s)) as [|n] eqn:En; [|discriminate].
      cbn in H. injection H as <- <-.
      assert (rid = length (reqs s)) as -> by lia.
      rewrite Ht, responses_app, (responses_other _ _ Hother). cbn.
      destruct c as [k t|t|]; [| |contradiction].
      * now destruct Hc as (_ & _ & _ & _ & _ & _ & Hr).
      * now destruct Hc as (_ & _ & _ & _ & Hr).
  - intros rid t. rewrite Ht. intros [H|H]%elem_of_app.
    + destruct (Ifo _ _ H) as (req0 & c0 & Hl0 & Hb).
      exists req0, c0. split; [now apply lookup_app_l_Some|].
      eapply bound_to_app; eauto.
    + assert (rid = length (reqs s)) as ->.
      { eapply Forall_forall in Hes; [|exact H]. exact Hes. }
      apply forwards_elem in H. exists req, c.
      split; [apply list_lookup_middle; reflexivity|].
      destruct c as [k t'|t'|].
      * destruct Hc as (_ & _ & _ & _ & _ & Hf & _). rewrite Hf in H.
        inversion H.
      * destruct Hc as (_ & Hget & _ & Hf & _). rewrite Hf in H.
        apply list_elem_of_singleton in H. injection H as ->.
        eapply bound_to_app; eauto.
      * destruct Hc as (_ & _ & ->). cbn in H. inversion H.
Qed.

Lemma visit_inv s r req now s' :
  Inv env s → step env (Visit r req now) s = Some s' → Inv env s'.
Proof.
  intros [Itr Ica Ise Ire Isi Ifo]. cbn [step]. intros [= <-].
  constructor; cbn [world reqs]; unfold bound_to in *;
    cbn [emit record trace sessions transports].
  - rewrite length_app. cbn. apply Forall_app. split.
    + eapply Forall_impl; [exact Itr|]. cbn. intros; lia.
    + repeat constructor. cbn. lia.
  - exact Ica.
  - exact Ise.
  - intros rid req0 c0 [H|[Hge H]]%lookup_app_Some;
      [exact (Ire _ _ _ H)|].
    destruct (rid - length (reqs s)); cbn in H; [|discriminate].
    now injection H as <- <-.
  - intros rid req0 c0 [H|[Hge H]]%lookup_app_Some Hne.
    + rewrite responses_app, (Isi _ _ _ H Hne). reflexivity.
    + destruct (rid - length (reqs s)); cbn in H; [|discriminate].
      injection H as <- <-. contradiction.
  - intros rid t [H|H]%elem_of_app.
    + destruct (Ifo _ _ H) as (req0 & c0 & Hl0 & Hb).
      exists req0, c0. split; [now apply lookup_app_l_Some | assumption].
    + apply list_elem_of_singleton in H. discriminate.
Qed.

(** The common shape of the two resumptions. *)
Lemma resume_inv s rid req c w' c' es :
  Inv env s →
  reqs s !! rid = Some (req, c) → c ≠ Finished →
  sessions w' = sessions (world s) →
  trace w' = trace (world s) ++ es →
  Forall (λ e, ev_rid e = rid) es →
  (∀ k t, transports w' !! k = Some t →
          transports (world s) !! k = Some t ∨ bound_to (world s) t k) →
  match c' with
  | AwaitConnect k t => k = token env req ∧ bound_to (world s) t k
  | AwaitHandle t => bound_to (world s) t (token env req)
  | Finished => True
  end →
  (c' ≠ Finished → responses rid es = []) →
  (∀ t, (rid, t) ∈ forwards es → bound_to (world s) t (token env req)) →
  Inv env {| world := w'; reqs := <[rid := (req, c')]> (reqs s) |}.
Proof.
  intros [Itr Ica Ise Ire Isi Ifo] Hrid Hc Hs Ht Hes Hca Hc' Hsil Hfw.
  pose proof (lookup_lt_Some _ _ _ Hrid) as Hlt.
  constructor; cbn [world reqs]; unfold bound_to in *; rewrite ?Hs.
  - rewrite Ht, length_insert. apply Forall_app. split; [exact Itr|].
    eapply Forall_impl; [exact Hes|]. cbn. intros; lia.
  - intros k t H. destruct (Hca _ _ H); eauto.
  - exact Ise.
  - intros rid0 req0 c0 [(<- & [= <- <-] & _)|[Hne H]]%list_lookup_insert_Some.
    + exact Hc'.
    + exact (Ire _ _ _ H).
  - intros rid0 req0 c0
      [(<- & [= <- <-] & _)|[Hne H]]%list_lookup_insert_Some Hfin;
      rewrite Ht, responses_app.
    + now rewrite (Isi _ _ _ Hrid Hc), (Hsil Hfin).
    + rewrite (Isi _ _ _ H Hfin). apply responses_other.
      eapply Forall_impl; [exact Hes|]. cbn. congruence.
  - intros rid0 t. rewrite Ht. intros [H|H]%elem_of_app.
    + destruct (Ifo _ _ H) as (req0 & c0 & Hl0 & Hb).
      destruct (decide (rid0 = rid)) as [->|Hne].
      * exists req, c'. rewrite list_lookup_insert_eq by assumption.
        split; [reflexivity|]. congruence.
      * exists req0, c0. now rewrite list_lookup_insert_ne.
    + assert (rid0 = rid) as ->.
      { eapply Forall_forall in Hes; [|exact H]. exact Hes. }
      exists req, c'. rewrite list_lookup_insert_eq by assumption.
      split; [reflexivity|]. apply Hfw. now apply forwards_elem.
Qed.

Lemma step_inv a s s' : Inv env s → step env a s = Some s' → Inv env s'.
Proof.
  intros HI. destruct a as [req t1 t2 | r req now | rid o | rid o].
  - now apply arrive_inv.
  - now apply visit_inv.
  - cbn [step].
    destruct (reqs s !! rid) as [[req [k t| |]]|] eqn:E; try discriminate.
    destruct (inv_reqs _ _ HI _ _ _ E) as [Hk Hb].
    destruct o; cbn; intros [= <-];
      (eapply resume_inv;
       [exact HI | exact E | discriminate | reflexivity | reflexivity
       | repeat constructor | ..]); cbn.
    + intros k0 t0 [[<- <-]|[_ H]]%lookup_insert_Some; auto.
    + now subst k.
    + reflexivity.
    + intros t0 [= <-]%list_elem_of_singleton. now subst k.
    + auto.
    + exact I.
    + contradiction.
    + intros t0 H. inversion H.
  - cbn [step].
    destruct (reqs s !! rid) as [[req [|t|]]|] eqn:E; try discriminate.
    pose proof (inv_reqs _ _ HI _ _ _ E) as Hb. cbn in Hb.
    destruct o as [|hs]; cbn; intros [= <-].
    + eapply (resume_inv _ _ _ _ _ _ []);
        [exact HI | exact E | discriminate | reflexivity
        | now rewrite app_nil_r | constructor | auto | exact I
        | contradiction | ].
      intros t0 H. inversion H.
    + eapply resume_inv;
        [exact HI | exact E | discriminate | reflexivity | reflexivity
        | | auto | exact I | contradiction | ].
      * destruct hs; repeat constructor.
      * intros t0 H. destruct hs; inversion H.
Qed.

Lemma exec_inv acts : ∀ s s',
  Inv env s → exec env acts s = Some s' → Inv env s'.
Proof.
  induction acts as [|a acts IH]; intros s s' HI; cbn [exec].
  - now intros [= <-].
  - destruct (step env a s) as [s1|] eqn:Hstep; [|discriminate]. cbn.
    apply IH. eapply step_inv; eauto.
Qed.

Lemma reachable_inv start acts s :
  exec env acts (boot start) = Some s → Inv env s.
Proof. apply exec_inv, boot_inv. Qed.

Lemma events_of_next s :
  Inv env s → events_of (length (reqs s)) (trace (world s)) = [].
Proof. intros HI. apply events_of_fresh, (inv_trace _ _ HI). Qed.

End Invariant.

(** ** The dispatcher *)

Lemma mcp_start_missing env rid req t1 t2 w :
  token env req = "" →
  mcp_start env rid req t1 t2 w =
  (emit [EvRespond rid tokenRequired]
     (emit [EvTrackRequest rid] (record (trackRequest req "/mcp" t1) w)),
   Finished).
Proof. intros H. unfold mcp_start. now rewrite H. Qed.

Lemma mcp_start_resolved env rid req t1 t2 w :
  token env req ≠ "" →
  mcp_start env rid req t1 t2 w =
  let w1 := emit [EvTrackRequest rid] (record (trackRequest req "/mcp" t1) w) in
  let w2 :=
    if is_tool_call req then
      emit [EvTrackToolCall rid (default "" (body_params_name req))
              (getClientIp req)]
           (record (trackToolCall (default "" (body_params_name req))
                      (getClientIp req) t2) w1)
    else w1 in
  match transports w !! token env req with
  | Some t =>
      (emit [EvGet rid (token env req) (Some t); EvHandleRequest rid t] w2,
       AwaitHandle t)
  | None =>
      (emit [EvGet rid (token env req) None;
             EvNew rid (token env req) (length (sessions w))]
         (alloc (createMcpServer (token env req)) w2),
       AwaitConnect (token env req) (length (sessions w)))
  end.
Proof.
  intros H. apply truthy_Some in H. unfold mcp_start. rewrite H. cbn.
  now destruct (is_tool_call req).
Qed.

Lemma responses_events_of rid tr :
  responses rid (events_of rid tr) = responses rid tr.
Proof.
  unfold responses, events_of. induction tr as [|e tr IH]; [reflexivity|].
  destruct (decide (ev_rid e = rid)) as [He|He].
  - rewrite filter_cons_True by assumption. cbn. now rewrite IH.
  - rewrite filter_cons_False by assumption. rewrite IH. cbn.
    destruct e; try reflexivity. cbn in He. now rewrite decide_False.
Qed.

(** C4.  When no credential resolves, the request is answered with status 401
    and the JSON-RPC error [-32001] with [id: null], whose message names the
    query parameter, the header and the environment variable; the cache and
    the sessions are left as they were, and counting the request and sending
    that answer are the only effects the request ever has. *)
Theorem missing_credential_rejected env start pre s req t1 t2 :
  exec env pre (boot start) = Some s →
  resolved env req = None →
  ∃ s', step env (Arrive req t1 t2) s = Some s'
    ∧ transports (world s') = transports (world s)
    ∧ sessions (world s') = sessions (world s)
    ∧ status tokenRequired = 401%Z
    ∧ code (error (json tokenRequired)) = (-32001)%Z
    ∧ id (json tokenRequired) = None
    ∧ Js.includesStr "?token=" (message (error (json tokenRequired))) = true
    ∧ Js.includesStr "X-GitHub-Token"
        (message (error (json tokenRequired))) = true
    ∧ Js.includesStr "GITHUB_PERSONAL_ACCESS_TOKEN"
        (message (error (json tokenRequired))) = true
    ∧ ∀ acts s'', exec env acts s' = Some s'' →
        events_of (length (reqs s)) (trace (world s'')) =
        [EvTrackRequest (length (reqs s));
         EvRespond (length (reqs s)) tokenRequired].
Proof.
  intros Hreach Hnone. apply resolved_None in Hnone.
  apply reachable_inv in Hreach.
  cbn [step]. rewrite (mcp_start_missing _ _ _ _ _ _ Hnone).
  eexists. split; [reflexivity|]. cbn [world reqs].
  do 8 (split; [reflexivity|]).
  intros acts s'' Hexec.
  eapply exec_finished in Hexec as [_ ->];
    [|cbn [reqs]; apply list_lookup_middle; reflexivity].
  cbn [world trace emit record].
  rewrite <- app_assoc, events_of_app, (events_of_next _ _ Hreach).
  cbn [app]. apply events_of_own. repeat constructor.
Qed.

(** C9.  When forwarding a payload into a session throws, the error is
    logged, and the dispatcher answers with status 500 and the JSON-RPC error
    [-32603] exactly when the response headers have not been sent; when they
    have, logging is the only effect, and the dispatcher writes nothing for
    that request, then or later. *)
Theorem forwarding_error_answered_once env start pre s rid headersSent s' :
  exec env pre (boot start) = Some s →
  step env (ResumeHandle rid (Threw headersSent)) s = Some s' →
  status internalError = 500%Z
  ∧ code (error (json internalError)) = (-32603)%Z
  ∧ ∀ acts s'', exec env acts s' = Some s'' →
      events_of rid (trace (world s'')) =
        events_of rid (trace (world s)) ++
        EvConsoleError rid ::
        (if headersSent then [] else [EvRespond rid internalError])
      ∧ responses rid (trace (world s'')) =
        (if headersSent then [] else [internalError])
      ∧ (internalError ∈ responses rid (trace (world s''))
         ↔ headersSent = false).
Proof.
  intros Hreach Hstep. apply reachable_inv in Hreach.
  split; [reflexivity|]. split; [reflexivity|].
  intros acts s'' Hexec. cbn [step] in Hstep.
  destruct (reqs s !! rid) as [[req [|t|]]|] eqn:E; try discriminate.
  cbn in Hstep. injection Hstep as <-.
  pose proof (lookup_lt_Some _ _ _ E) as Hlt.
  eapply exec_finished in Hexec as [_ Hev];
    [|cbn [reqs]; now apply list_lookup_insert_eq].
  cbn [world trace emit on_error] in Hev. rewrite events_of_app in Hev.
  rewrite (events_of_own rid (EvConsoleError rid :: _)) in Hev
    by (destruct headersSent; repeat constructor).
  assert (Hresp : responses rid (trace (world s'')) =
                  if headersSent then [] else [internalError]).
  { rewrite <- responses_events_of, Hev, responses_app, responses_events_of.
    rewrite (inv_silent _ _ Hreach _ _ _ E) by discriminate.
    destruct headersSent; cbn; [reflexivity|]. now rewrite decide_True. }
  split; [exact Hev|]. split; [exact Hresp|].
  rewrite Hresp. destruct headersSent.
  - split; [intros H; inversion H | discriminate].
  - split; [reflexivity|]. intros _. apply list_elem_of_singleton. reflexivity.
Qed.

(** ** The transport cache *)

(** Only the arrival of a request whose token has no cached transport
    allocates, and it allocates the server built for that token. *)
Lemma step_sessions env a s s' :
  step env a s = Some s' →
  sessions (world s') = sessions (world s)
  ∨ ∃ req t1 t2, a = Arrive req t1 t2
      ∧ token env req ≠ ""
      ∧ transports (world s) !! token env req = None
      ∧ sessions (world s') =
        sessions (world s) ++ [createMcpServer (token env req)].
Proof.
  destruct a as [req t1 t2 | r req now | rid o | rid o]; cbn [step].
  - destruct (mcp_start_shape env (length (reqs s)) req t1 t2 (world s))
      as (es & _ & _ & _ & Hc).
    destruct (mcp_start env (length (reqs s)) req t1 t2 (world s)) as [w c].
    cbn [fst snd] in *. intros [= <-]. cbn [world].
    destruct c as [k t|t|].
    + destruct Hc as (-> & Hk & Hget & _ & Hs & _). right. eauto 10.
    + left. tauto.
    + left. tauto.
  - intros [= <-]. now left.
  - destruct (reqs s !! rid) as [[req [k t| |]]|]; try discriminate.
    destruct o; intros [= <-]; now left.
  - destruct (reqs s !! rid) as [[req [|t|]]|]; try discriminate.
    destruct o; intros [= <-]; now left.
Qed.


(** ** Tool-call telemetry *)







(** ** Credential isolation *)

(** C5.  In every reachable state: a request is only ever forwarded to a
    session whose client was built with the token resolved for that request;
    the transport cached for a token denotes a session built with that token;
    requests with different tokens are forwarded to different sessions, and
    different tokens are cached with different transports; every session a
    further step allocates is built with the token of the arriving request. *)
Theorem credential_isolation env start acts s :
  exec env acts (boot start) = Some s →
  (∀ rid t, (rid, t) ∈ forwards (trace (world s)) →
     ∃ req c, reqs s !! rid = Some (req, c)
       ∧ octokit_auth <$> sessions (world s) !! t = Some (token env req))
  ∧ (∀ k t, transports (world s) !! k = Some t →
       octokit_auth <$> sessions (world s) !! t = Some k)
  ∧ (∀ rid1 rid2 t1 t2 req1 req2 c1 c2,
       (rid1, t1) ∈ forwards (trace (world s)) →
       (rid2, t2) ∈ forwards (trace (world s)) →
       reqs s !! rid1 = Some (req1, c1) →
       reqs s !! rid2 = Some (req2, c2) →
       token env req1 ≠ token env req2 →
       t1 ≠ t2)
  ∧ (∀ k1 k2 t1 t2,
       transports (world s) !! k1 = Some t1 →
       transports (world s) !! k2 = Some t2 →
       k1 ≠ k2 → t1 ≠ t2)
  ∧ (∀ a s' t srv,
       step env a s = Some s' →
       sessions (world s) !! t = None →
       sessions (world s') !! t = Some srv →
       ∃ req t1 t2, a = Arrive req t1 t2 ∧ octokit_auth srv = token env req).
Proof.
  intros HI%reachable_inv.
  assert (Hfw : ∀ rid t, (rid, t) ∈ forwards (trace (world s)) →
            ∃ req c, reqs s !! rid = Some (req, c)
              ∧ octokit_auth <$> sessions (world s) !! t = Some (token env req)).
  { intros rid t H%forwards_elem.
    destruct (inv_forwards _ _ HI _ _ H) as (req & c & Hl & Hb).
    exists req, c. split; [assumption|]. unfold bound_to in Hb. now rewrite Hb. }
  assert (Hca : ∀ k t, transports (world s) !! k = Some t →
            octokit_auth <$> sessions (world s) !! t = Some k).
  { intros k t H. pose proof (inv_cache _ _ HI _ _ H) as Hb.
    unfold bound_to in Hb. now rewrite Hb. }
  split; [exact Hfw|]. split; [exact Hca|]. split; [|split].
  - intros rid1 rid2 t1 t2 req1 req2 c1 c2 H1 H2 Hl1 Hl2 Hne ->.
    destruct (Hfw _ _ H1) as (r1 & d1 & Hr1 & Ha1).
    destruct (Hfw _ _ H2) as (r2 & d2 & Hr2 & Ha2).
    congruence.
  - intros k1 k2 t1 t2 H1 H2 Hne ->.
    apply Hca in H1, H2. congruence.
  - intros a s' t srv Hstep Hold Hnew.
    destruct (step_sessions _ _ _ _ Hstep) as [H|H].
    + congruence.
    + destruct H as (req & t1 & t2 & -> & _ & _ & Hs).
      rewrite Hs in Hnew.
      apply lookup_app_Some in Hnew as [Hnew|[_ Hnew]]; [congruence|].
      destruct (t - length (sessions (world s))); cbn in Hnew; [|discriminate].
      injection Hnew as <-. eauto.
Qed.

(** C10.  An empty query token falls through to the header, and an empty or
    absent header falls through to the configured default; the arriving
    request is answered with the 401 error exactly when all three are absent
    or empty; hence every session was built with a non-empty token and every
    key of the cache is non-empty. *)
Theorem empty_credential_never_wins env start acts s req :
  exec env acts (boot start) = Some s →
  (query_token req = Some "" →
     token env req = Js.or_else (hdr_x_github_token req) (GITHUB_TOKEN env))
  ∧ (query_token req = Some "" →
     absent_or_empty (hdr_x_github_token req) →
     token env req = GITHUB_TOKEN env)
  ∧ (∀ t1 t2 s',
       step env (Arrive req t1 t2) s = Some s' →
       (responses (length (reqs s)) (trace (world s')) = [tokenRequired]
        ↔ absent_or_empty (query_token req)
          ∧ absent_or_empty (hdr_x_github_token req)
          ∧ absent_or_empty (GITHUB_PERSONAL_ACCESS_TOKEN env)))
  ∧ (∀ t srv, sessions (world s) !! t = Some srv → octokit_auth srv ≠ "")
  ∧ (∀ k t, transports (world s) !! k = Some t → k ≠ "").
Proof.
  intros HI%reachable_inv.
  split; [|split; [|split; [|split]]].
  - intros Hq. unfold token. apply or_else_falsy. now right.
  - intros Hq Hh. unfold token.
    rewrite (or_else_falsy (query_token req)) by now right.
    now apply or_else_falsy.
  - intros t1 t2 s'. cbn [step].
    destruct (mcp_start_shape env (length (reqs s)) req t1 t2 (world s))
      as (es & Ht & Hes & _ & Hc).
    destruct (mcp_start env (length (reqs s)) req t1 t2 (world s)) as [w c].
    cbn [fst snd] in *. intros [= <-]. cbn [world].
    rewrite Ht, responses_app, <- token_empty.
    rewrite (responses_other _ (trace (world s)))
      by (eapply Forall_impl; [exact (inv_trace _ _ HI)|]; cbn; intros; lia).
    cbn [app]. destruct c as [k t|t|].
    + destruct Hc as (<- & Hk & _ & _ & _ & _ & ->). split; [discriminate|].
      contradiction.
    + destruct Hc as (Hk & _ & _ & _ & ->). split; [discriminate|].
      contradiction.
    + destruct Hc as (Hk & _ & ->). cbn. rewrite decide_True by reflexivity.
      tauto.
  - exact (inv_sessions _ _ HI).
  - intros k t H. pose proof (inv_cache _ _ HI _ _ H) as Hb.
    apply (inv_sessions _ _ HI) in Hb. exact Hb.
Qed.

(** ** Concurrent first requests *)


Lemma handle_mcp_hit env rid j w t :
  token env (job_req j) ≠ "" →
  transports w !! token env (job_req j) = Some t →
  sessions (handle_mcp env rid j w) = sessions w
  ∧ transports (handle_mcp env rid j w) = transports w
  ∧ forwards (trace (handle_mcp env rid j w)) =
    forwards (trace w) ++ [(rid, t)].
Proof.
  intros Hk Hget. unfold handle_mcp.
  rewrite (mcp_start_resolved _ _ _ _ _ _ Hk). cbn zeta. rewrite Hget.
  destruct (is_tool_call (job_req j)), (job_handle j) as [|[]];
    cbn [mcp_handled on_error fst emit record sessions transports trace];
    rewrite <- ?app_assoc, ?forwards_app; cbn; rewrite ?app_nil_r; auto.
Qed.






(** ** The theorems at concrete inputs *)



Lemma missing_credential_rejected_witness :
  let req := call_request None (Some "hello") in
  exec no_default [] (boot "") = Some (boot "")
  ∧ resolved no_default req = None
  ∧ ∃ s', step no_default (Arrive req "" "") (boot "") = Some s'
      ∧ sessions (world s') = []
      ∧ ∀ acts s'', exec no_default acts s' = Some s'' →
          events_of 0 (trace (world s'')) =
          [EvTrackRequest 0; EvRespond 0 tokenRequired].
Proof.
  intros req.
  assert (H1 : exec no_default [] (boot "") = Some (boot "")) by reflexivity.
  assert (H2 : resolved no_default req = None) by (vm_compute; reflexivity).
  do 2 (split; [assumption|]).
  destruct (missing_credential_rejected no_default "" [] (boot "") req "" ""
              H1 H2)
    as (s' & Hstep & _ & Hs & _ & _ & _ & _ & _ & _ & Hev).
  exists s'. split; [exact Hstep|]. split; [exact Hs | exact Hev].
Defined.

Lemma credential_isolation_witness :
  ∃ s, exec no_default two_users (boot "") = Some s
    ∧ forwards (trace (world s)) = [(1, 1); (0, 0); (2, 0)]
    ∧ ∀ rid t, (rid, t) ∈ forwards (trace (world s)) →
        ∃ req c, reqs s !! rid = Some (req, c)
          ∧ octokit_auth <$> sessions (world s) !! t
            = Some (token no_default req).
Proof.
  eexists.
  match goal with
  | |- exec _ _ _ = Some ?s ∧ _ =>
      assert (Hs : exec no_default two_users (boot "") = Some s)
        by (vm_compute; reflexivity);
      split; [exact Hs|]; split; [vm_compute; reflexivity|];
      exact (proj1 (credential_isolation no_default "" two_users s Hs))
  end.
Defined.


Lemma forwarding_error_answered_once_witness :
  ∃ s s',
    exec no_default warm_up (boot "") = Some s
    ∧ step no_default (ResumeHandle 0 (Threw false)) s = Some s'
    ∧ ∀ acts s'', exec no_default acts s' = Some s'' →
        responses 0 (trace (world s'')) = [internalError].
Proof.
  eexists _, _.
  match goal with
  | |- exec _ _ _ = Some ?s ∧ step _ ?a ?s = Some ?s' ∧ _ =>
      assert (Hs : exec no_default warm_up (boot "") = Some s)
        by (vm_compute; reflexivity);
      assert (Hstep : step no_default a s = Some s')
        by (vm_compute; reflexivity);
      do 2 (split; [assumption|]);
      intros acts s'' Hexec;
      exact (proj1 (proj2 (proj2 (proj2
               (forwarding_error_answered_once no_default "" warm_up s 0
                  false s' Hs Hstep)) acts s'' Hexec)))
  end.
Defined.

Lemma empty_credential_never_wins_witness :
  let req := call_request (Some "") (Some "hello") in
  ∃ s, exec no_default two_users (boot "") = Some s
    ∧ token no_default req = GITHUB_TOKEN no_default
    ∧ (∀ t srv, sessions (world s) !! t = Some srv → octokit_auth srv ≠ "")
    ∧ (∀ k t, transports (world s) !! k = Some t → k ≠ "").
Proof.
  intros req. eexists.
  match goal with
  | |- exec _ _ _ = Some ?s ∧ _ =>
      assert (Hs : exec no_default two_users (boot "") = Some s)
        by (vm_compute; reflexivity);
      split; [exact Hs|];
      destruct (empty_credential_never_wins no_default "" two_users s req Hs)
        as (_ & Hfall & _ & Hsess & Hkeys)
  end.
  split; [apply Hfall; [reflexivity | now left]|].
  split; [exact Hsess | exact Hkeys].
Defined.

(** * Further properties of the server *)

(** ** Counter objects *)








(** One breakdown: an [Analytics] field that an operation bumps at its key. *)
Section Breakdown.
Context (proj : Analytics → gmap string nat) (keyf : Op → option string).
Hypothesis proj_apply : ∀ a op,
  proj (apply a op) =
  match keyf op with Some k => bump k (proj a) | None => proj a end.
Hypothesis proj_init : ∀ start, proj (Telemetry.init start) = ∅.



End Breakdown.




Lemma totalToolCalls_run start ops :
  totalToolCalls (run ops (Telemetry.init start)) = length (calls ops).
Proof.
  induction ops as [|op ops IH] using rev_ind; [reflexivity|].
  rewrite run_snoc. destruct op as [req endpoint now | toolName ip now].
  - rewrite calls_snoc_request. exact IH.
  - rewrite calls_snoc_tool, length_app. cbn. lia.
Qed.




(** X3.  After any run of the recorder from its initial state the recent
    calls hold as many entries as tool calls were recorded, up to 100, and
    the summary of [/analytics] shows the 20 most recent of them, newest
    first. *)
Theorem recent_calls_length_and_summary (start : string) (ops : list Op) :
  let a := run ops (Telemetry.init start) in
  totalToolCalls a = length (calls ops)
  ∧ length (recentToolCalls a) = totalToolCalls a `min` 100
  ∧ recentToolCalls20 a = take 20 (reverse (calls ops))
  ∧ length (recentToolCalls20 a) = totalToolCalls a `min` 20.
Proof.
  cbn zeta. unfold recentToolCalls20.
  rewrite totalToolCalls_run, recent_of_run, take_take, !length_take,
    length_reverse.
  repeat split; lia.
Qed.






(** ** The client IP key *)

Lemma includes_before (c : ascii) (s : string) :
  Js.includes c (before c s) = false.
Proof.
  induction s as [|d s IH]; [reflexivity|]. cbn.
  destruct (Ascii.eqb d c) eqn:E; [reflexivity|]. cbn. now rewrite E.
Qed.

Lemma includes_trimStart (c : ascii) (s : string) :
  Js.includes c s = false → Js.includes c (Js.trimStart s) = false.
Proof.
  induction s as [|d s IH]; [reflexivity|]. cbn.
  destruct (Js.is_ws d); [|now intros H].
  intros [_ H]%orb_false_iff. now apply IH.
Qed.

Lemma includes_trimEnd (c : ascii) (s : string) :
  Js.includes c s = false → Js.includes c (Js.trimEnd s) = false.
Proof.
  induction s as [|d s IH]; [reflexivity|]. cbn.
  intros [Hd H]%orb_false_iff. specialize (IH H).
  destruct (Js.trimEnd s) as [|e r]; cbn in *.
  - destruct (Js.is_ws d); cbn; [reflexivity|]. now rewrite Hd.
  - now rewrite Hd.
Qed.

Lemma trimEnd_cons (d : ascii) (s : string) :
  Js.trimEnd (String d s) =
  match Js.trimEnd s with
  | EmptyString => if Js.is_ws d then EmptyString else String d EmptyString
  | r => String d r
  end.
Proof. reflexivity. Qed.

Lemma trimEnd_idem (s : string) : Js.trimEnd (Js.trimEnd s) = Js.trimEnd s.
Proof.
  induction s as [|d s IH]; [reflexivity|]. rewrite trimEnd_cons.
  destruct (Js.trimEnd s) as [|e r] eqn:E.
  - destruct (Js.is_ws d) eqn:Hd; [reflexivity|].
    rewrite trimEnd_cons. cbn. now rewrite Hd.
  - rewrite trimEnd_cons, IH. reflexivity.
Qed.

Lemma trimStart_head (s : string) :
  Js.trimStart s = ""
  ∨ ∃ d r, Js.trimStart s = String d r ∧ Js.is_ws d = false.
Proof.
  induction s as [|d s IH]; [now left|]. cbn.
  destruct (Js.is_ws d) eqn:Hd; [exact IH|]. right. eauto.
Qed.

Lemma trimStart_trim (s : string) : Js.trimStart (Js.trim s) = Js.trim s.
Proof.
  unfold Js.trim. destruct (trimStart_head s) as [->|(d & r & -> & Hd)];
    [reflexivity|].
  rewrite trimEnd_cons.
  destruct (Js.trimEnd r); rewrite ?Hd; cbn [Js.trimStart]; now rewrite Hd.
Qed.

Lemma or_else_Some (s b : string) : s ≠ "" → Js.or_else (Some s) b = s.
Proof.
  intros Hs. unfold Js.or_else. apply truthy_Some in Hs. now rewrite Hs.
Qed.

(** X6.  The client IP under which a request is counted is never empty.
    With an [X-Forwarded-For] header whose first list element is not blank it
    is that element without the white space around it, so it holds no comma
    and neither starts nor ends with white space; otherwise it is the
    socket's remote address, or [unknown] when that is absent or empty. *)
Theorem client_ip_key (req : Request) :
  getClientIp req ≠ ""
  ∧ match hdr_x_forwarded_for req with
    | Some x =>
        let first := Js.trim (before "," x) in
        if String.eqb first "" then
          getClientIp req = Js.or_else (remoteAddress req) "unknown"
        else
          getClientIp req = first
          ∧ Js.includes "," first = false
          ∧ Js.trimStart first = first
          ∧ Js.trimEnd first = first
    | None => getClientIp req = Js.or_else (remoteAddress req) "unknown"
    end.
Proof.
  split.
  - unfold getClientIp. intros H. apply or_else_empty in H as [_ H].
    apply or_else_empty in H as [_ H]. discriminate.
  - unfold getClientIp. destruct (hdr_x_forwarded_for req) as [x|];
      cbn [mbind option_bind]; [|reflexivity].
    rewrite split_head. cbn [mbind option_bind]. cbn zeta.
    destruct (String.eqb_spec (Js.trim (before "," x)) "") as [E|E].
    + apply or_else_falsy. right. now rewrite E.
    + split; [now apply or_else_Some|]. split; [|split].
      * apply includes_trimEnd, includes_trimStart, includes_before.
      * apply trimStart_trim.
      * apply trimEnd_idem.
Qed.

(** ** Uptime *)

(** X7.  For a clock that has not gone back, the uptime shown splits the
    elapsed time into whole days, hours below 24 and minutes below 60,
    dropping less than a minute; the days are shown from one day on and the
    hours from one hour on. *)
Theorem uptime_parts (start now : Z) :
  (start ≤ now)%Z →
  let diff := (now - start)%Z in
  (0 ≤ days diff ∧ 0 ≤ hours diff < 24 ∧ 0 ≤ minutes diff < 60)%Z
  ∧ (0 ≤ diff - (days diff * 86400000 + hours diff * 3600000
                 + minutes diff * 60000) < 60000)%Z
  ∧ getUptime start now =
      if (86400000 <=? diff)%Z then
        pretty (days diff) +:+ "d " +:+ pretty (hours diff) +:+ "h "
        +:+ pretty (minutes diff) +:+ "m"
      else if (3600000 <=? diff)%Z then
        pretty (hours diff) +:+ "h " +:+ pretty (minutes diff) +:+ "m"
      else pretty (minutes diff) +:+ "m".
Proof.
  intros Hle diff. assert (Hd : (0 ≤ diff)%Z) by (subst diff; lia).
  unfold getUptime. fold diff. clearbody diff.
  unfold days, hours, minutes.
  change (1000 * 60 * 60 * 24)%Z with 86400000%Z.
  change (1000 * 60 * 60)%Z with 3600000%Z.
  change (1000 * 60)%Z with 60000%Z.
  rewrite !Z.rem_mod_nonneg by lia.
  split; [|split].
  - Z.div_mod_to_equations. lia.
  - Z.div_mod_to_equations. lia.
  - destruct (Z.leb_spec 86400000 diff) as [H1|H1].
    + replace (0 <? diff / 86400000)%Z with true; [reflexivity|].
      symmetry. apply Z.ltb_lt. Z.div_mod_to_equations. lia.
    + replace (0 <? diff / 86400000)%Z with false
        by (symmetry; apply Z.ltb_ge; Z.div_mod_to_equations; lia).
      destruct (Z.leb_spec 3600000 diff) as [H2|H2].
      * replace (0 <? diff `mod` 86400000 / 3600000)%Z with true;
          [reflexivity|].
        symmetry. apply Z.ltb_lt. Z.div_mod_to_equations. lia.
      * replace (0 <? diff `mod` 86400000 / 3600000)%Z with false;
          [reflexivity|].
        symmetry. apply Z.ltb_ge. Z.div_mod_to_equations. lia.
Qed.

Lemma uptime_parts_witness :
  (1000 ≤ 93784000)%Z
  ∧ days 93783000 = 1%Z ∧ hours 93783000 = 2%Z ∧ minutes 93783000 = 3%Z
  ∧ getUptime 1000 93784000 = "1d 2h 3m".
Proof.
  assert (H : (1000 ≤ 93784000)%Z) by lia.
  split; [exact H|].
  destruct (uptime_parts 1000 93784000 H) as (_ & _ & Hu).
  do 3 (split; [reflexivity|]). rewrite Hu. reflexivity.
Defined.

(** X8.  When the clock has gone back since the start, the uptime shown is
    only a minute count between -60 and 0, whatever the distance. *)
Theorem uptime_clock_set_back (start now : Z) :
  (now < start)%Z →
  let diff := (now - start)%Z in
  getUptime start now = pretty (minutes diff) +:+ "m"
  ∧ (-60 ≤ minutes diff ≤ 0)%Z.
Proof.
  intros Hlt diff. assert (Hd : (diff < 0)%Z) by (subst diff; lia).
  unfold getUptime. fold diff. clearbody diff.
  unfold days, hours, minutes.
  change (1000 * 60 * 60 * 24)%Z with 86400000%Z.
  change (1000 * 60 * 60)%Z with 3600000%Z.
  change (1000 * 60)%Z with 60000%Z.
  assert (Hr1 : (-86400000 < Z.rem diff 86400000 ≤ 0)%Z).
  { pose proof (Z.rem_bound_pos_neg diff 86400000 ltac:(lia) ltac:(lia)). lia. }
  assert (Hr2 : (-3600000 < Z.rem diff 3600000 ≤ 0)%Z).
  { pose proof (Z.rem_bound_pos_neg diff 3600000 ltac:(lia) ltac:(lia)). lia. }
  generalize dependent (Z.rem diff 86400000).
  generalize dependent (Z.rem diff 3600000). intros r2 Hr2 r1 Hr1.
  replace (0 <? diff / 86400000)%Z with false
    by (symmetry; apply Z.ltb_ge; Z.div_mod_to_equations; lia).
  replace (0 <? r1 / 3600000)%Z with false
    by (symmetry; apply Z.ltb_ge; Z.div_mod_to_equations; lia).
  split; [reflexivity|]. Z.div_mod_to_equations. lia.
Qed.

Lemma uptime_clock_set_back_witness :
  (0 < 5400000)%Z ∧ getUptime 5400000 0 = "-30m".
Proof.
  assert (H : (0 < 5400000)%Z) by lia. split; [exact H|].
  destruct (uptime_clock_set_back 5400000 0 H) as [Hu _].
  rewrite Hu. reflexivity.
Defined.

(** ** The health endpoint *)

(** X9.  [/health] reports [hasToken: true] exactly when a default token is
    configured, and that is exactly when no request to [/mcp] can be
    rejected for a missing credential. *)
Theorem health_token_means_never_rejected (env : Env) (now : string) :
  (hasToken (health env now) = true
   ↔ ¬ absent_or_empty (GITHUB_PERSONAL_ACCESS_TOKEN env))
  ∧ (hasToken (health env now) = true ↔ ∀ req, resolved env req ≠ None).
Proof.
  cbn [health hasToken]. rewrite truthy_Some, GITHUB_TOKEN_empty.
  split; [reflexivity|]. split.
  - intros Hd req [_ [_ H]]%resolved_None%token_empty. contradiction.
  - intros H Hd.
    apply (H {| req_method := "POST"; query_token := None;
                hdr_x_github_token := None; hdr_x_forwarded_for := None;
                hdr_user_agent := None; remoteAddress := None;
                body := None |}).
    apply resolved_None, token_empty. cbn. repeat split; try now left.
    exact Hd.
Qed.

(** ** The sorted breakdowns of [/analytics] *)

Section Sort.
Context {A : Type} (cmp : A → A → Z).

Lemma sort_insert_perm x l : sort_insert cmp x l ≡ₚ x :: l.
Proof.
  induction l as [|y l IH]; cbn; [reflexivity|].
  destruct (cmp x y <=? 0)%Z; [reflexivity|].
  rewrite IH. apply Permutation_swap.
Qed.

Lemma sort_perm l : sort cmp l ≡ₚ l.
Proof.
  induction l as [|x l IH]; cbn; [reflexivity|].
  now rewrite sort_insert_perm, IH.
Qed.

Lemma sort_length l : length (sort cmp l) = length l.
Proof. apply Permutation_length, sort_perm. Qed.

Hypothesis cmp_total :
  ∀ x y, before_or_tied cmp x y ∨ before_or_tied cmp y x.
Hypothesis cmp_trans :
  ∀ x y z, before_or_tied cmp x y → before_or_tied cmp y z →
           before_or_tied cmp x z.

Lemma sort_insert_sorted x l :
  StronglySorted (before_or_tied cmp) l →
  StronglySorted (before_or_tied cmp) (sort_insert cmp x l).
Proof.
  induction 1 as [|y l Hs IH Hy]; cbn.
  - repeat constructor.
  - destruct (Z.leb_spec (cmp x y) 0) as [Hxy|Hxy].
    + constructor; [now constructor|]. constructor; [exact Hxy|].
      eapply Forall_impl; [exact Hy|]. intros z. now apply cmp_trans.
    + constructor; [exact IH|].
      rewrite sort_insert_perm. constructor; [|exact Hy].
      destruct (cmp_total x y) as [H|H]; [|exact H].
      unfold before_or_tied in H. lia.
Qed.

Lemma sort_sorted l : StronglySorted (before_or_tied cmp) (sort cmp l).
Proof.
  induction l as [|x l IH]; cbn; [constructor|].
  now apply sort_insert_sorted.
Qed.

(** What [slice(0, n)] of a sorted array keeps and leaves out. *)
Lemma sort_take n l x y :
  x ∈ take n (sort cmp l) → y ∈ drop n (sort cmp l) → before_or_tied cmp x y.
Proof.
  intros Hx Hy. pose proof (sort_sorted l) as Hs.
  rewrite <- (take_drop n (sort cmp l)) in Hs.
  eapply StronglySorted_app_1_elem_of; eauto.
Qed.
End Sort.

Lemma StronglySorted_reverse {A} (R : relation A) (l : list A) :
  StronglySorted R l → StronglySorted (flip R) (reverse l).
Proof.
  induction 1 as [|x l Hs IH Hx]; [constructor|].
  rewrite reverse_cons. apply StronglySorted_app_2.
  - intros y z Hy ->%list_elem_of_singleton. rewrite elem_of_reverse in Hy.
    unfold flip. rewrite Forall_forall in Hx. now apply Hx.
  - exact IH.
  - repeat constructor.
Qed.







(** X12.  For a collation that is total and transitive, the hourly
    breakdown of [/analytics] lists at most 24 entries of the counter
    object, in ascending order of their hour keys, and no entry left out has
    a later hour key than an entry listed. *)
Theorem last24Hours_latest_ascending
    (localeCompare : string → string → Z) (entries : list (string * nat)) :
  (∀ a b, (localeCompare a b ≤ 0)%Z ∨ (localeCompare b a ≤ 0)%Z) →
  (∀ a b c, (localeCompare a b ≤ 0)%Z → (localeCompare b c ≤ 0)%Z →
            (localeCompare a c ≤ 0)%Z) →
  let shown := last24Hours localeCompare entries in
  let sorted := sort (λ x y, localeCompare y.1 x.1) entries in
  length shown = length entries `min` 24
  ∧ shown ⊆ entries
  ∧ StronglySorted (λ x y, (localeCompare x.1 y.1 ≤ 0)%Z) shown
  ∧ shown ++ drop 24 sorted ≡ₚ entries
  ∧ ∀ x y, x ∈ shown → y ∈ drop 24 sorted → (localeCompare y.1 x.1 ≤ 0)%Z.
Proof.
  intros Htotal Htrans shown sorted. subst shown sorted. unfold last24Hours.
  set (cmp := λ x y : string * nat, localeCompare y.1 x.1).
  assert (Hs : StronglySorted (before_or_tied cmp) (sort cmp entries)).
  { apply sort_sorted.
    - intros x y. unfold before_or_tied, cmp.
      destruct (Htotal x.1 y.1); auto.
    - intros x y z. unfold before_or_tied, cmp. eauto. }
  rewrite <- (take_drop 24 (sort cmp entries)) in Hs.
  split; [rewrite length_reverse, length_take, sort_length; lia|].
  split.
  { intros x Hx. rewrite elem_of_reverse in Hx. apply subseteq_take in Hx.
    now rewrite sort_perm in Hx. }
  split.
  { apply StronglySorted_app_1_l, StronglySorted_reverse in Hs. exact Hs. }
  split; [now rewrite reverse_Permutation, take_drop, sort_perm|].
  intros x y Hx Hy. rewrite elem_of_reverse in Hx.
  apply (StronglySorted_app_1_elem_of _ _ _ x y Hs Hx Hy).
Qed.

Lemma codeUnitCompare_le (a b : string) :
  (codeUnitCompare a b ≤ 0)%Z ↔ String.le a b.
Proof.
  unfold codeUnitCompare, String.le.
  destruct (String.leb a b), (String.leb b a); cbn; split; intros;
    try lia; try done.
Qed.

Lemma last24Hours_latest_ascending_witness :
  let entries := [("2026-01-01T10:00", 3); ("2026-01-01T09:00", 1);
                  ("2026-01-01T11:00", 2)] in
  (∀ a b, (codeUnitCompare a b ≤ 0)%Z ∨ (codeUnitCompare b a ≤ 0)%Z)
  ∧ (∀ a b c, (codeUnitCompare a b ≤ 0)%Z → (codeUnitCompare b c ≤ 0)%Z →
              (codeUnitCompare a c ≤ 0)%Z)
  ∧ last24Hours codeUnitCompare entries =
      [("2026-01-01T09:00", 1); ("2026-01-01T10:00", 3);
       ("2026-01-01T11:00", 2)]
  ∧ StronglySorted (λ x y, (codeUnitCompare x.1 y.1 ≤ 0)%Z)
      (last24Hours codeUnitCompare entries).
Proof.
  intros entries.
  assert (Htotal : ∀ a b,
            (codeUnitCompare a b ≤ 0)%Z ∨ (codeUnitCompare b a ≤ 0)%Z).
  { intros a b. rewrite !codeUnitCompare_le. apply (total String.le). }
  assert (Htrans : ∀ a b c,
            (codeUnitCompare a b ≤ 0)%Z → (codeUnitCompare b c ≤ 0)%Z →
            (codeUnitCompare a c ≤ 0)%Z).
  { intros a b c. rewrite !codeUnitCompare_le. apply transitivity. }
  split; [exact Htotal|]. split; [exact Htrans|].
  split; [vm_compute; reflexivity|].
  exact (proj1 (proj2 (proj2
           (last24Hours_latest_ascending codeUnitCompare entries
              Htotal Htrans)))).
Defined.

(** ** The server as a whole *)

Lemma tool_events_app tr1 tr2 :
  tool_events (tr1 ++ tr2) = tool_events tr1 ++ tool_events tr2.
Proof. apply omap_app. Qed.

Lemma step_counts env a s s' :
  step env a s = Some s' →
  totalRequests (analytics (world s')) + length (reqs s)
    = totalRequests (analytics (world s)) + length (reqs s')
  ∧ totalToolCalls (analytics (world s')) + length (tool_events (trace (world s)))
    = totalToolCalls (analytics (world s)) + length (tool_events (trace (world s')))
  ∧ length (tool_events (trace (world s'))) + length (reqs s)
    ≤ length (tool_events (trace (world s))) + length (reqs s').
Proof.
  destruct a as [req t1 t2 | r req now | rid o | rid o]; cbn [step].
  - destruct (decide (token env req = "")) as [Hk|Hk].
    + rewrite (mcp_start_missing _ _ _ _ _ _ Hk). intros [= <-].
      cbn [world reqs emit record analytics trace].
      rewrite !tool_events_app, !length_app. cbn. lia.
    + rewrite (mcp_start_resolved _ _ _ _ _ _ Hk). cbn zeta.
      destruct (is_tool_call req), (transports (world s) !! token env req);
        intros [= <-]; cbn [world reqs emit record alloc analytics trace];
        rewrite !tool_events_app, !length_app; cbn; lia.
  - intros [= <-]. cbn [world reqs emit record analytics trace].
    rewrite !tool_events_app, !length_app. cbn. lia.
  - destruct (reqs s !! rid) as [[req [k t| |]]|]; try discriminate.
    destruct o; intros [= <-];
      cbn [world reqs mcp_connected on_error emit cache analytics trace fst snd];
      rewrite !tool_events_app, !length_app, length_insert; cbn; lia.
  - destruct (reqs s !! rid) as [[req [|t|]]|]; try discriminate.
    destruct o as [|[]]; intros [= <-];
      cbn [world reqs mcp_handled on_error emit analytics trace fst snd];
      rewrite ?tool_events_app, ?length_app, length_insert; cbn; lia.
Qed.

(** X13.  In every reachable state [totalRequests] is the number of
    requests that have arrived, on any route, and [totalToolCalls] is the
    number of tool-call notifications made, which is at most the number of
    requests. *)
Theorem every_request_counted env start acts s :
  exec env acts (boot start) = Some s →
  totalRequests (analytics (world s)) = length (reqs s)
  ∧ totalToolCalls (analytics (world s)) = length (tool_events (trace (world s)))
  ∧ totalToolCalls (analytics (world s)) ≤ totalRequests (analytics (world s)).
Proof.
  assert (H : ∀ acts s0 s,
            exec env acts s0 = Some s →
            totalRequests (analytics (world s0)) = length (reqs s0)
            ∧ totalToolCalls (analytics (world s0))
              = length (tool_events (trace (world s0)))
            ∧ length (tool_events (trace (world s0))) ≤ length (reqs s0) →
            totalRequests (analytics (world s)) = length (reqs s)
            ∧ totalToolCalls (analytics (world s))
              = length (tool_events (trace (world s)))
            ∧ length (tool_events (trace (world s))) ≤ length (reqs s)).
  { clear. intros acts. induction acts as [|a acts IH]; intros s0 s; cbn [exec].
    - now intros [= <-].
    - destruct (step env a s0) as [s1|] eqn:Hstep; [|discriminate]. cbn.
      intros Hexec H0. apply (IH _ _ Hexec).
      pose proof (step_counts _ _ _ _ Hstep). lia. }
  intros Hexec. destruct (H _ _ _ Hexec) as (H1 & H2 & H3).
  - cbn. lia.
  - lia.
Qed.

Lemma every_request_counted_witness :
  ∃ s, exec no_default two_users (boot "") = Some s
    ∧ totalRequests (analytics (world s)) = 3
    ∧ totalToolCalls (analytics (world s)) = 3.
Proof.
  eexists.
  match goal with
  | |- exec _ _ _ = Some ?s ∧ _ =>
      assert (Hs : exec no_default two_users (boot "") = Some s)
        by (vm_compute; reflexivity);
      split; [exact Hs|];
      destruct (every_request_counted no_default "" two_users s Hs)
        as (H1 & H2 & _)
  end.
  split; [rewrite H1 | rewrite H2]; reflexivity.
Defined.

Lemma step_grows env a s s' :
  step env a s = Some s' →
  sessions (world s) `prefix_of` sessions (world s')
  ∧ (∀ k, is_Some (transports (world s) !! k) →
          is_Some (transports (world s') !! k)).
Proof.
  intros Hstep. split.
  - destruct (step_sessions _ _ _ _ Hstep) as [->|H]; [reflexivity|].
    destruct H as (req & t1 & t2 & _ & _ & _ & ->). now apply prefix_app_r.
  - destruct a as [req t1 t2 | r req now | rid o | rid o]; cbn [step] in Hstep.
    + destruct (mcp_start_shape env (length (reqs s)) req t1 t2 (world s))
        as (es & _ & _ & Htr & _).
      destruct (mcp_start env (length (reqs s)) req t1 t2 (world s)) as [w c].
      injection Hstep as <-. cbn [fst world] in *. now rewrite Htr.
    + injection Hstep as <-. intros k. exact (λ H, H).
    + destruct (reqs s !! rid) as [[req [k t| |]]|]; try discriminate.
      destruct o; injection Hstep as <-; intros k0 H; [|exact H].
      cbn [world mcp_connected fst emit cache transports].
      rewrite lookup_insert_is_Some. destruct (decide (k = k0)); auto.
    + destruct (reqs s !! rid) as [[req [|t|]]|]; try discriminate.
      destruct o as [|[]]; injection Hstep as <-; intros k H; exact H.
Qed.

(** X14.  Nothing is ever evicted: along any run of the server the store of
    sessions only grows at its end, and a token that has a cached transport
    keeps having one. *)
Theorem nothing_is_evicted env acts s s' :
  exec env acts s = Some s' →
  sessions (world s) `prefix_of` sessions (world s')
  ∧ dom (transports (world s)) ⊆ dom (transports (world s')).
Proof.
  revert s. induction acts as [|a acts IH]; intros s; cbn [exec].
  - intros [= <-]. split; reflexivity.
  - destruct (step env a s) as [s1|] eqn:Hstep; [|discriminate]. cbn.
    intros Hexec. destruct (IH _ Hexec) as [Hp Hd].
    destruct (step_grows _ _ _ _ Hstep) as [Hp1 Hd1].
    split; [now transitivity (sessions (world s1))|].
    intros k Hk%elem_of_dom. apply Hd, elem_of_dom. auto.
Qed.

Lemma nothing_is_evicted_witness :
  let later := [Arrive (call_request (Some "ghp_b") (Some "hello")) "" "";
                ResumeConnect 1 Connected;
                ResumeHandle 0 (Threw false)] in
  ∃ s s', exec no_default warm_up (boot "") = Some s
    ∧ exec no_default later s = Some s'
    ∧ sessions (world s) `prefix_of` sessions (world s')
    ∧ dom (transports (world s)) ⊆ dom (transports (world s')).
Proof.
  intros later. eexists _, _. split; [vm_compute; reflexivity|].
  match goal with
  | |- exec _ _ ?s = Some ?s' ∧ _ =>
      assert (Hs : exec no_default later s = Some s')
        by (vm_compute; reflexivity);
      split; [exact Hs|];
      exact (nothing_is_evicted no_default later s s' Hs)
  end.
Defined.

(** X15.  In every reachable state every session was built by
    [createMcpServer] with a non-empty token, so its [hello] tool reports
    [hasToken: true]. *)
Theorem sessions_report_their_token env start acts s :
  exec env acts (boot start) = Some s →
  ∀ t srv, sessions (world s) !! t = Some srv →
    srv = createMcpServer (octokit_auth srv)
    ∧ octokit_auth srv ≠ ""
    ∧ hello_hasToken srv = true.
Proof.
  assert (H : ∀ acts s0 s,
            exec env acts s0 = Some s →
            Forall (λ srv, srv = createMcpServer (octokit_auth srv)
                           ∧ octokit_auth srv ≠ "") (sessions (world s0)) →
            Forall (λ srv, srv = createMcpServer (octokit_auth srv)
                           ∧ octokit_auth srv ≠ "") (sessions (world s))).
  { clear. intros acts. induction acts as [|a acts IH]; intros s0 s; cbn [exec].
    - now intros [= <-].
    - destruct (step env a s0) as [s1|] eqn:Hstep; [|discriminate]. cbn.
      intros Hexec H0. apply (IH _ _ Hexec).
      destruct (step_sessions _ _ _ _ Hstep) as [->|Hs]; [exact H0|].
      destruct Hs as (req & t1 & t2 & _ & Hk & _ & ->).
      apply Forall_app. split; [exact H0|]. repeat constructor. exact Hk. }
  intros Hexec t srv Hsrv.
  specialize (H _ _ _ Hexec (Forall_nil_2 _)).
  eapply Forall_lookup_1 in H as [Hc Hk]; [|exact Hsrv].
  split; [exact Hc|]. split; [exact Hk|].
  rewrite Hc. cbn. now apply truthy_Some.
Qed.

Lemma sessions_report_their_token_witness :
  ∃ s, exec no_default two_users (boot "") = Some s
    ∧ length (sessions (world s)) = 2
    ∧ ∀ t srv, sessions (world s) !! t = Some srv → hello_hasToken srv = true.
Proof.
  eexists.
  match goal with
  | |- exec _ _ _ = Some ?s ∧ _ =>
      assert (Hs : exec no_default two_users (boot "") = Some s)
        by (vm_compute; reflexivity);
      split; [exact Hs|]; split; [vm_compute; reflexivity|];
      intros t srv Hsrv;
      exact (proj2 (proj2
               (sessions_report_their_token no_default "" two_users s Hs
                  t srv Hsrv)))
  end.
Defined.

(** ** One answer and one forwarding per request *)

Lemma forwards_of_app rid tr1 tr2 :
  forwards_of rid (tr1 ++ tr2) = forwards_of rid tr1 ++ forwards_of rid tr2.
Proof. apply omap_app. Qed.

Lemma forwards_of_other rid tr :
  Forall (λ e, ev_rid e ≠ rid) tr → forwards_of rid tr = [].
Proof.
  induction 1 as [|e tr He _ IH]; [reflexivity|].
  unfold forwards_of in *. cbn. rewrite IH.
  destruct e; try reflexivity. cbn in He. now rewrite decide_False.
Qed.

Lemma forwards_of_via rid tr :
  forwards_of rid tr =
  omap (λ p : nat * nat, if decide (p.1 = rid) then Some p.2 else None)
       (forwards tr).
Proof.
  unfold forwards_of, forwards. induction tr as [|e tr IH]; [reflexivity|].
  destruct e; cbn; try exact IH.
  case_decide; cbn; now rewrite IH.
Qed.

Lemma forwards_of_events_of rid tr :
  forwards_of rid (events_of rid tr) = forwards_of rid tr.
Proof.
  unfold forwards_of, events_of. induction tr as [|e tr IH]; [reflexivity|].
  destruct (decide (ev_rid e = rid)) as [He|He].
  - rewrite filter_cons_True by assumption. cbn. now rewrite IH.
  - rewrite filter_cons_False by assumption. rewrite IH. cbn.
    destruct e; try reflexivity. cbn in He. now rewrite decide_False.
Qed.

Lemma step_others env a s s' rid :
  step env a s = Some s' → rid ≠ action_rid a s →
  reqs s' !! rid = reqs s !! rid.
Proof.
  destruct a as [req t1 t2 | r req now | rid' o | rid' o];
    cbn [step action_rid].
  - destruct (mcp_start env _ req t1 t2 (world s)).
    intros [= <-] Hne. cbn [reqs].
    destruct (decide (rid < length (reqs s))) as [Hlt|Hge].
    + now apply lookup_app_l.
    + rewrite !lookup_ge_None_2; [reflexivity|lia|].
      rewrite length_app. cbn. lia.
  - intros [= <-] Hne. cbn [reqs].
    destruct (decide (rid < length (reqs s))) as [Hlt|Hge].
    + now apply lookup_app_l.
    + rewrite !lookup_ge_None_2; [reflexivity|lia|].
      rewrite length_app. cbn. lia.
  - destruct (reqs s !! rid') as [[req c]|]; [|discriminate].
    destruct c; try discriminate. destruct (mcp_connected _ _ _ _ _).
    intros [= <-] Hne. cbn [reqs]. now apply list_lookup_insert_ne.
  - destruct (reqs s !! rid') as [[req c]|]; [|discriminate].
    destruct c; try discriminate. destruct (mcp_handled _ _ _).
    intros [= <-] Hne. cbn [reqs]. now apply list_lookup_insert_ne.
Qed.

Lemma step_own env a s s' :
  Inv env s → Once s → step env a s = Some s' →
  let rid := action_rid a s in
  ∃ es, trace (world s') = trace (world s) ++ es
    ∧ Forall (λ e, ev_rid e = rid) es
    ∧ responses rid (trace (world s)) = []
    ∧ length (responses rid es) ≤ 1
    ∧ length (forwards_of rid (trace (world s)) ++ forwards_of rid es) ≤ 1
    ∧ ∀ req k t, reqs s' !! rid = Some (req, AwaitConnect k t) →
                 forwards_of rid (trace (world s)) = []
                 ∧ forwards_of rid es = [].
Proof.
  intros HI HO Hstep rid.
  assert (Hfresh : Forall (λ e, ev_rid e ≠ length (reqs s)) (trace (world s))).
  { eapply Forall_impl; [exact (inv_trace _ _ HI)|]. cbn. intros; lia. }
  destruct a as [req t1 t2 | r req now | rid' o | rid' o];
    cbn [step action_rid] in *; subst rid.
  - destruct (mcp_start_shape env (length (reqs s)) req t1 t2 (world s))
      as (es & Ht & Hes & _ & Hc).
    destruct (mcp_start env (length (reqs s)) req t1 t2 (world s)) as [w c].
    injection Hstep as <-. cbn [fst snd world reqs] in *.
    exists es. split; [exact Ht|]. split; [exact Hes|].
    rewrite (responses_other _ _ Hfresh), (forwards_of_other _ _ Hfresh).
    split; [reflexivity|]. cbn [app].
    rewrite list_lookup_middle by reflexivity.
    rewrite (forwards_of_via _ es).
    destruct c as [k t|t|].
    + destruct Hc as (_ & _ & _ & _ & _ & -> & ->). cbn. auto with lia.
    + destruct Hc as (_ & _ & _ & -> & ->). cbn.
      rewrite decide_True by reflexivity. cbn.
      split; [lia|]. split; [lia|]. intros; discriminate.
    + destruct Hc as (_ & _ & ->). cbn. rewrite decide_True by reflexivity.
      cbn. split; [lia|]. split; [lia|]. intros; discriminate.
  - injection Hstep as <-. cbn [world reqs emit record trace].
    eexists. split; [reflexivity|]. split; [repeat constructor|].
    rewrite (responses_other _ _ Hfresh), (forwards_of_other _ _ Hfresh).
    cbn. rewrite list_lookup_middle by reflexivity.
    split; [reflexivity|]. split; [lia|]. split; [lia|]. intros; discriminate.
  - destruct (reqs s !! rid') as [[req [k t| |]]|] eqn:E; try discriminate.
    pose proof (lookup_lt_Some _ _ _ E) as Hlt.
    rewrite (inv_silent _ _ HI _ _ _ E) by discriminate.
    destruct (HO rid') as (_ & _ & HJ). rewrite (HJ _ _ _ E).
    destruct o; injection Hstep as <-;
      cbn [world reqs mcp_connected on_error emit cache trace fst snd];
      (eexists; split; [reflexivity|]; split; [repeat constructor|]);
      rewrite list_lookup_insert_eq by assumption; cbn;
      rewrite ?decide_True by reflexivity; cbn;
      (split; [reflexivity|]; split; [lia|]; split; [lia|]);
      intros; discriminate.
  - destruct (reqs s !! rid') as [[req [|t|]]|] eqn:E; try discriminate.
    pose proof (lookup_lt_Some _ _ _ E) as Hlt.
    rewrite (inv_silent _ _ HI _ _ _ E) by discriminate.
    destruct (HO rid') as (_ & Hf & _).
    destruct o as [|[]]; injection Hstep as <-;
      cbn [world reqs mcp_handled on_error emit trace fst snd];
      [exists []; split; [now rewrite app_nil_r|]
      |eexists; split; [reflexivity|]
      |eexists; split; [reflexivity|]];
      (split; [repeat constructor|]);
      rewrite list_lookup_insert_eq by assumption; cbn;
      rewrite ?decide_True by reflexivity; cbn; rewrite app_nil_r;
      (split; [reflexivity|]; split; [lia|]; split; [exact Hf|]);
      intros; discriminate.
Qed.

Lemma step_once env a s s' :
  Inv env s → Once s → step env a s = Some s' → Once s'.
Proof.
  intros HI HO Hstep rid.
  destruct (step_own _ _ _ _ HI HO Hstep) as (es & Ht & Hes & Hr0 & Hr & Hf & HJ).
  rewrite Ht, responses_app, forwards_of_app.
  destruct (decide (rid = action_rid a s)) as [->|Hne].
  - rewrite Hr0. cbn [app]. split; [exact Hr|]. split; [exact Hf|].
    intros req k t Hl. destruct (HJ _ _ _ Hl) as [-> ->]. reflexivity.
  - assert (Hes' : Forall (λ e, ev_rid e ≠ rid) es).
    { eapply Forall_impl; [exact Hes|]. cbn. congruence. }
    rewrite (responses_other _ _ Hes'), (forwards_of_other _ _ Hes'), !app_nil_r.
    rewrite (step_others _ _ _ _ _ Hstep Hne). exact (HO rid).
Qed.

Lemma reachable_once env start acts s :
  exec env acts (boot start) = Some s → Once s.
Proof.
  assert (H : ∀ acts s0 s, exec env acts s0 = Some s →
                           Inv env s0 → Once s0 → Once s).
  { clear. intros acts. induction acts as [|a acts IH]; intros s0 s; cbn [exec].
    - now intros [= <-].
    - destruct (step env a s0) as [s1|] eqn:Hstep; [|discriminate]. cbn.
      intros Hexec HI HO. apply (IH _ _ Hexec).
      + eapply step_inv; eauto.
      + eapply step_once; eauto. }
  intros Hexec. apply (H _ _ _ Hexec (boot_inv env start)).
  intros rid. cbn. split; [lia|]. split; [lia|]. intros req k t Hl.
  reflexivity.
Qed.

(** X16.  In every reachable state the dispatcher has answered each request
    at most once and has handed it to a transport at most once; a request
    whose handler is still running has not been answered by the dispatcher,
    and one that awaits [connect] has not been forwarded. *)
Theorem answered_and_forwarded_at_most_once env start acts s rid :
  exec env acts (boot start) = Some s →
  length (responses rid (trace (world s))) ≤ 1
  ∧ length (forwards_of rid (trace (world s))) ≤ 1
  ∧ (∀ req c, reqs s !! rid = Some (req, c) → c ≠ Finished →
              responses rid (trace (world s)) = [])
  ∧ (∀ req k t, reqs s !! rid = Some (req, AwaitConnect k t) →
                forwards_of rid (trace (world s)) = []).
Proof.
  intros Hexec. pose proof (reachable_inv _ _ _ _ Hexec) as HI.
  destruct (reachable_once _ _ _ _ Hexec rid) as (Hr & Hf & HJ).
  split; [exact Hr|]. split; [exact Hf|]. split; [|exact HJ].
  exact (inv_silent _ _ HI rid).
Qed.

Lemma answered_and_forwarded_at_most_once_witness :
  ∃ s, exec no_default race (boot "") = Some s
    ∧ forwards_of 0 (trace (world s)) = [0]
    ∧ forwards_of 1 (trace (world s)) = [1]
    ∧ length (responses 0 (trace (world s))) ≤ 1
    ∧ length (forwards_of 0 (trace (world s))) ≤ 1.
Proof.
  eexists.
  match goal with
  | |- exec _ _ _ = Some ?s ∧ _ =>
      assert (Hs : exec no_default race (boot "") = Some s)
        by (vm_compute; reflexivity);
      split; [exact Hs|]; do 2 (split; [vm_compute; reflexivity|]);
      destruct (answered_and_forwarded_at_most_once no_default "" race s 0 Hs)
        as (Hr & Hf & _)
  end.
  split; [exact Hr | exact Hf].
Defined.

(** X17.  When connecting a new server to its transport throws, the request
    is answered with status 500 and the JSON-RPC error [-32603], it is never
    forwarded, and the cache is left as it was, so the token stays without
    an entry unless another request caches one. *)
Theorem connect_failure_answered env start pre s rid s' :
  exec env pre (boot start) = Some s →
  step env (ResumeConnect rid ConnectThrew) s = Some s' →
  transports (world s') = transports (world s)
  ∧ sessions (world s') = sessions (world s)
  ∧ ∀ acts s'', exec env acts s' = Some s'' →
      responses rid (trace (world s'')) = [internalError]
      ∧ forwards_of rid (trace (world s'')) = [].
Proof.
  intros Hreach Hstep.
  pose proof (reachable_inv _ _ _ _ Hreach) as HI.
  destruct (reachable_once _ _ _ _ Hreach rid) as (_ & _ & HJ).
  cbn [step] in Hstep.
  destruct (reqs s !! rid) as [[req [k t| |]]|] eqn:E; try discriminate.
  cbn in Hstep. injection Hstep as <-. cbn [world on_error emit transports sessions].
  split; [reflexivity|]. split; [reflexivity|].
  intros acts s'' Hexec.
  pose proof (lookup_lt_Some _ _ _ E) as Hlt.
  eapply exec_finished in Hexec as [_ Hev];
    [|cbn [reqs]; now apply list_lookup_insert_eq].
  cbn [world trace emit on_error] in Hev.
  rewrite <- responses_events_of, <- forwards_of_events_of, Hev.
  rewrite responses_events_of, forwards_of_events_of.
  rewrite responses_app, forwards_of_app.
  rewrite (inv_silent _ _ HI _ _ _ E) by discriminate.
  rewrite (HJ _ _ _ eq_refl). cbn. now rewrite decide_True.
Qed.

Lemma connect_failure_answered_witness :
  let acts := [Arrive first_request "" ""] in
  ∃ s s', exec no_default acts (boot "") = Some s
    ∧ step no_default (ResumeConnect 0 ConnectThrew) s = Some s'
    ∧ transports (world s') = ∅
    ∧ ∀ acts' s'', exec no_default acts' s' = Some s'' →
        responses 0 (trace (world s'')) = [internalError].
Proof.
  intros acts. eexists _, _.
  match goal with
  | |- exec _ _ _ = Some ?s ∧ step _ ?a ?s = Some ?s' ∧ _ =>
      assert (Hs : exec no_default acts (boot "") = Some s)
        by (vm_compute; reflexivity);
      assert (Hstep : step no_default a s = Some s')
        by (vm_compute; reflexivity);
      do 2 (split; [assumption|]);
      destruct (connect_failure_answered no_default "" acts s 0 s' Hs Hstep)
        as (Htr & _ & Hlater)
  end.
  split; [rewrite Htr; reflexivity|].
  intros acts' s'' Hexec. exact (proj1 (Hlater acts' s'' Hexec)).
Defined.

(** ** Requests served one at a time *)

Lemma handle_mcp_effect env rid j w :
  (∀ k t, transports w !! k = Some t →
          transports (handle_mcp env rid j w) !! k = Some t)
  ∧ sessions w `prefix_of` sessions (handle_mcp env rid j w)
  ∧ forwards (trace w) `prefix_of` forwards (trace (handle_mcp env rid j w)).
Proof.
  unfold handle_mcp.
  destruct (decide (token env (job_req j) = "")) as [Hk|Hk].
  - rewrite (mcp_start_missing _ _ _ _ _ _ Hk).
    cbn [emit record transports sessions trace].
    split; [auto|]. split; [reflexivity|].
    rewrite <- !app_assoc, forwards_app. now apply prefix_app_r.
  - rewrite (mcp_start_resolved _ _ _ _ _ _ Hk). cbn zeta.
    destruct (transports w !! token env (job_req j)) as [t0|] eqn:Hget;
      destruct (is_tool_call (job_req j)); try destruct (job_connect j);
      try destruct (job_handle j) as [|[]];
      cbn [mcp_connected mcp_handled on_error fst emit record alloc cache
           sessions transports trace];
      (split; [intros k t Hkt;
               first [exact Hkt
                     | rewrite lookup_insert_ne; [exact Hkt | congruence]]|]);
      (split; [first [reflexivity | now apply prefix_app_r]|]);
      rewrite <- ?app_assoc, ?forwards_app; now apply prefix_app_r.
Qed.

Lemma serve_effect env jobs : ∀ rid w,
  sessions w `prefix_of` sessions (serve env rid jobs w)
  ∧ forwards (trace w) `prefix_of` forwards (trace (serve env rid jobs w)).
Proof.
  induction jobs as [|j jobs IH]; intros rid w; cbn [serve].
  - split; reflexivity.
  - destruct (handle_mcp_effect env rid j w) as (_ & Hs & Hf).
    destruct (IH (S rid) (handle_mcp env rid j w)) as [Hs' Hf'].
    split; etransitivity; eauto.
Qed.

(** X18.  When requests are served one at a time, the transport cached for
    a token is never replaced, whatever other requests are served and
    whether their connects or forwardings fail, and every later request
    with that token is forwarded to it. *)
Theorem serial_cache_is_stable env jobs rid w k t :
  k ≠ "" →
  transports w !! k = Some t →
  transports (serve env rid jobs w) !! k = Some t
  ∧ sessions w `prefix_of` sessions (serve env rid jobs w)
  ∧ ∀ i j, jobs !! i = Some j → token env (job_req j) = k →
           (rid + i, t) ∈ forwards (trace (serve env rid jobs w)).
Proof.
  intros Hk. revert rid w.
  induction jobs as [|j jobs IH]; intros rid w Hget; cbn [serve].
  - split; [exact Hget|]. split; [reflexivity|]. intros i j Hl. inversion Hl.
  - destruct (handle_mcp_effect env rid j w) as (Hkeep & Hs & _).
    destruct (IH (S rid) _ (Hkeep _ _ Hget)) as (Hget' & Hs' & Hfw').
    split; [exact Hget'|]. split; [etransitivity; eauto|].
    intros [|i] j' Hl Hj'.
    + injection Hl as <-. subst k.
      destruct (handle_mcp_hit env rid j w t Hk Hget) as (_ & _ & Hf).
      destruct (serve_effect env jobs (S rid) (handle_mcp env rid j w))
        as [_ [rest Hrest]].
      rewrite Hrest, Hf, Nat.add_0_r.
      apply elem_of_app. left. apply elem_of_app. right.
      apply list_elem_of_here.
    + replace (rid + S i) with (S rid + i) by lia. now apply (Hfw' i j').
Qed.

Lemma serial_cache_is_stable_witness :
  let w := serve no_default 0 [serial_job "0"] (world (boot "")) in
  let other :=
    {| job_req := call_request (Some "ghp_b") (Some "hello");
       job_t1 := "1"; job_t2 := "1";
       job_connect := ConnectThrew; job_handle := Returned |} in
  let jobs := [other; serial_job "2"] in
  "ghp_a" ≠ ""
  ∧ transports w !! "ghp_a" = Some 0
  ∧ transports (serve no_default 1 jobs w) !! "ghp_a" = Some 0
  ∧ (2, 0) ∈ forwards (trace (serve no_default 1 jobs w)).
Proof.
  intros w other jobs.
  assert (H1 : "ghp_a" ≠ "") by discriminate.
  assert (H2 : transports w !! "ghp_a" = Some 0) by (vm_compute; reflexivity).
  do 2 (split; [assumption|]).
  destruct (serial_cache_is_stable no_default jobs 1 w "ghp_a" 0 H1 H2)
    as (Hget & _ & Hfw).
  split; [exact Hget|].
  apply (Hfw 1 (serial_job "2")); reflexivity.
Defined.
